(** * Teddy Stadium fixture scraper: model of [scraper.py] and its properties

    The development follows the layout of the script: Python text and the
    few library calls the script relies on, the fixture record, the two
    parsers, and the reconciler [deduplicate_matches]. The parsers are
    modelled from the point where the page has been fetched and handed to
    BeautifulSoup; their progress messages on standard output and the
    calendar writer [create_ics] are left out. A call that can raise
    returns a [result]. *)

From Stdlib Require Import ZArith NArith Lia String Ascii.
From stdpp Require Import base tactics option list sets sorting.

Local Open Scope Z_scope.

(** ** Python text

    A Python [str] is a sequence of code points. Equality, [in], [<] and
    [split] all work code point by code point, so a [str] is a list of code
    point numbers. *)

Module Text.

Definition char := N.
Definition str := list char.

(** Literals of the script that are plain ASCII. *)
Definition lit (s : string) : str :=
  map N_of_ascii (list_ascii_of_string s).

(** [a < b] on [str]: lexicographic on code points, a proper prefix is
    smaller. *)
Fixpoint str_lt (a b : str) : bool :=
  match a, b with
  | _, [] => false
  | [], _ :: _ => true
  | x :: a', y :: b' =>
      if (x <? y)%N then true
      else if (y <? x)%N then false
      else str_lt a' b'
  end.

(** [s.startswith(p)] *)
Fixpoint starts_with (p s : str) : bool :=
  match p, s with
  | [], _ => true
  | _ :: _, [] => false
  | x :: p', y :: s' => bool_decide (x = y) && starts_with p' s'
  end.

(** [kw in s]: [kw] occurs in [s] as a contiguous run. *)
Fixpoint contains (kw s : str) : bool :=
  starts_with kw s ||
  match s with
  | [] => false
  | _ :: s' => contains kw s'
  end.

(** [s.split(sep)] for a one-character separator: the pieces between the
    occurrences of [sep], always at least one piece. *)
Fixpoint split (sep : char) (s : str) : list str :=
  match s with
  | [] => [[]]
  | c :: s' =>
      match split sep s' with
      | piece :: pieces =>
          if bool_decide (c = sep) then [] :: piece :: pieces
          else (c :: piece) :: pieces
      | [] => []
      end
  end.

(** Code points of the Unicode decimal digits ZERO (category Nd); each is
    followed by the digits ONE to NINE of its script. This is the table
    behind [str.isdecimal], the regular expression class [\d] and [int]
    (Unicode 14.0, as shipped with CPython 3.11). *)
Definition DECIMAL_ZEROS : list N :=
  [48; 1632; 1776; 1984; 2406; 2534; 2662; 2790; 2918; 3046; 3174; 3302;
   3430; 3558; 3664; 3792; 3872; 4160; 4240; 6112; 6160; 6470; 6608; 6784;
   6800; 6992; 7088; 7232; 7248; 42528; 43216; 43264; 43472; 43504; 43600;
   44016; 65296; 66720; 68912; 69734; 69872; 69942; 70096; 70384; 70736;
   70864; 71248; 71360; 71472; 71904; 72016; 72784; 73040; 73120; 92768;
   92864; 93008; 120782; 120792; 120802; 120812; 120822; 123200; 123632;
   125264; 130032]%N.

Fixpoint decimal_in (zeros : list N) (c : char) : option N :=
  match zeros with
  | [] => None
  | z :: zeros' =>
      if ((z <=? c) && (c <? z + 10))%N then Some (c - z)%N
      else decimal_in zeros' c
  end.

(** The decimal value of a code point, if it is a decimal digit. *)
Definition decimal_value (c : char) : option N := decimal_in DECIMAL_ZEROS c.

Definition is_decimal (c : char) : bool :=
  match decimal_value c with Some _ => true | None => false end.

(** [str.isspace] for one code point, also the class [\s]. *)
Definition is_space (c : char) : bool :=
  bool_decide (c ∈ [9; 10; 11; 12; 13; 28; 29; 30; 31; 32; 133; 160; 5760;
                    8192; 8193; 8194; 8195; 8196; 8197; 8198; 8199; 8200;
                    8201; 8202; 8232; 8233; 8239; 8287; 12288]%N).

End Text.
Export Text.

(** ** Exceptions and results *)

Inductive exn := ValueError | OverflowError.

Inductive result (A : Type) :=
| Ok (a : A)
| Raise (e : exn).
Arguments Ok {A} a.
Arguments Raise {A} e.

#[global] Instance result_ret : MRet result := λ A a, Ok a.

#[global] Instance result_bind : MBind result := λ A B k r,
  match r with
  | Ok a => k a
  | Raise e => Raise e
  end.

#[global] Instance exn_eq_dec : EqDecision exn.
Proof. solve_decision. Defined.

#[global] Instance result_eq_dec `{EqDecision A} : EqDecision (result A).
Proof. solve_decision. Defined.

(** ** [int(s)] on text *)

Module Int.

(** Digits accepted at most by CPython's default
    [sys.int_info.default_max_str_digits]. *)
Definition MAX_STR_DIGITS : nat := 4300.

(** Step one of [int]: code points below 127 stay, other white space
    becomes a blank, other decimal digits their ASCII digit, anything else
    a question mark. *)
Definition to_ascii (c : char) : char :=
  if (c <? 127)%N then c
  else if is_space c then 32%N
  else match decimal_value c with
       | Some d => (48 + d)%N
       | None => 63%N
       end.

(** C's [isspace] in the "C" locale. *)
Definition c_isspace (c : char) : bool :=
  bool_decide (c ∈ [9; 10; 11; 12; 13; 32]%N).

Definition ascii_digit (c : char) : option Z :=
  if ((48 <=? c) && (c <=? 57))%N then Some (Z.of_N c - 48) else None.

Fixpoint skip_space (s : str) : str :=
  match s with
  | c :: s' => if c_isspace c then skip_space s' else s
  | [] => []
  end.

(** The digit scan: digits with single underscores in between. [prev_us]
    says that the previous character was an underscore, [n] counts the
    digits, [acc] is the value so far. Returns the value, the digit count
    and the unread rest; [None] on a doubled or trailing underscore. *)
Fixpoint scan_digits (s : str) (prev_us : bool) (n : nat) (acc : Z)
  : option (Z * nat * str) :=
  match s with
  | c :: s' =>
      if bool_decide (c = 95%N) then
        if prev_us then None else scan_digits s' true n acc
      else
        match ascii_digit c with
        | Some d => scan_digits s' false (S n) (10 * acc + d)
        | None => if prev_us then None else Some (acc, n, s)
        end
  | [] => if prev_us then None else Some (acc, n, [])
  end.

Definition int (s : str) : result Z :=
  let s := skip_space (map to_ascii s) in
  let '(sign, s) :=
    match s with
    | 43%N :: s' => (1, s')
    | 45%N :: s' => (-1, s')
    | _ => (1, s)
    end in
  match s with
  | 95%N :: _ => Raise ValueError
  | _ =>
      match scan_digits s false 0 0 with
      | Some (v, n, rest) =>
          if bool_decide (n = 0%nat) then Raise ValueError
          else if bool_decide (MAX_STR_DIGITS < n)%nat then Raise ValueError
          else match skip_space rest with
               | [] => Ok (sign * v)
               | _ :: _ => Raise ValueError
               end
      | None => Raise ValueError
      end
  end.

End Int.

(** ** The regular expressions of the script

    The four patterns are sequences of the items below, so a pattern is a
    list of items, matched left to right. [\s*] is always followed by an
    item that no white space matches, hence taking all the white space
    there is what the backtracking matcher ends up with. *)

Module Re.

Inductive item :=
| Digits (n : nat)   (* \d{n} *)
| Chr (c : char)     (* a literal character *)
| Spaces             (* \s* *)
| Open               (* ( *)
| Close              (* ) *)
| Eos.               (* $ *)

Fixpoint take_digits (n : nat) (s : str) : option (str * str) :=
  match n with
  | O => Some ([], s)
  | S n' =>
      match s with
      | c :: s' =>
          if is_decimal c then
            match take_digits n' s' with
            | Some (ds, rest) => Some (c :: ds, rest)
            | None => None
            end
          else None
      | [] => None
      end
  end.

Fixpoint span_space (s : str) : str * str :=
  match s with
  | c :: s' =>
      if is_space c then let '(sp, rest) := span_space s' in (c :: sp, rest)
      else ([], s)
  | [] => ([], [])
  end.

Definition extend (cur : option str) (t : str) : option str :=
  match cur with
  | Some g => Some (g ++ t)
  | None => None
  end.

(** Match the pattern at the start of [s]; [cur] is the text of the group
    that is open, [groups] the groups already closed. *)
Fixpoint run (p : list item) (s : str) (cur : option str)
    (groups : list str) : option (list str) :=
  match p with
  | [] => Some groups
  | Digits n :: p' =>
      match take_digits n s with
      | Some (ds, s') => run p' s' (extend cur ds) groups
      | None => None
      end
  | Chr c :: p' =>
      match s with
      | x :: s' =>
          if bool_decide (x = c) then run p' s' (extend cur [x]) groups
          else None
      | [] => None
      end
  | Spaces :: p' =>
      let '(sp, s') := span_space s in run p' s' (extend cur sp) groups
  | Open :: p' => run p' s (Some []) groups
  | Close :: p' => run p' s None (groups ++ [default [] cur])
  | Eos :: p' =>
      (* end of text, or just before a final newline *)
      if bool_decide (s = []) || bool_decide (s = [10%N])
      then run p' s cur groups
      else None
  end.

(** [re.match(p, s)]: [Some groups] on a match at the start of [s]. *)
Definition rmatch (p : list item) (s : str) : option (list str) :=
  run p s None [].

(** [re.search(p, s)]: the leftmost match. *)
Fixpoint search (p : list item) (s : str) : option (list str) :=
  match rmatch p s with
  | Some groups => Some groups
  | None =>
      match s with
      | [] => None
      | _ :: s' => search p s'
      end
  end.

End Re.

(** ** Module-level constants of the script *)

Definition DEFAULT_HOUR : Z := 20.
Definition DEFAULT_MINUTE : Z := 30.

(** [BEITAR_KW = "בית"] *)
Definition BEITAR_KW : str := [1489; 1497; 1514]%N.

(** [HAPOEL_JLM_KW = "הפועל ירושלים"] *)
Definition HAPOEL_JLM_KW : str :=
  [1492; 1508; 1493; 1506; 1500; 32;
   1497; 1512; 1493; 1513; 1500; 1497; 1501]%N.

(** ** Wall-clock time

    Every [datetime] the script builds or reads carries the one module-level
    [ISRAEL_TZ] object. For two aware datetimes sharing their tzinfo object
    Python compares and subtracts the wall-clock fields and ignores offsets,
    so a datetime is represented by its position on the wall-clock time
    line, counted in microseconds. A [timedelta] is a signed number of
    microseconds. *)

Definition US_PER_MINUTE : Z := 60000000.
Definition US_PER_DAY : Z := 86400000000.

(** [td.days]: timedelta normalises to [0 <= seconds < 86400], so the day
    count is the floor of the quotient. *)
Definition timedelta_days (td : Z) : Z := td / US_PER_DAY.

Definition is_leap (year : Z) : bool :=
  (year mod 4 =? 0) && (negb (year mod 100 =? 0) || (year mod 400 =? 0)).

Definition days_in_month (year month : Z) : Z :=
  if (month =? 2) && is_leap year then 29
  else nth (Z.to_nat month) [0; 31; 28; 31; 30; 31; 30; 31; 31; 30; 31; 30; 31] 0.

Definition days_before_year (year : Z) : Z :=
  let y := year - 1 in y * 365 + y / 4 - y / 100 + y / 400.

Definition days_before_month (year month : Z) : Z :=
  nth (Z.to_nat month)
      [0; 0; 31; 59; 90; 120; 151; 181; 212; 243; 273; 304; 334] 0
  + (if (2 <? month) && is_leap year then 1 else 0).

(** [date.toordinal]: day 1 is 1 January of year 1. *)
Definition ymd_to_ord (year month day : Z) : Z :=
  days_before_year year + days_before_month year month + day.

(** Position of [year-month-day hour:minute:00] on the time line. *)
Definition wall_clock (year month day hour minute : Z) : Z :=
  (((ymd_to_ord year month day) * 24 + hour) * 60 + minute) * US_PER_MINUTE.

Definition fits_c_int (z : Z) : bool :=
  (-2147483648 <=? z) && (z <=? 2147483647).

(** [datetime(year, month, day, hour, minute, tzinfo=ISRAEL_TZ)]: the
    arguments are first converted to C ints, then range-checked. *)
Definition datetime_new (year month day hour minute : Z) : result Z :=
  if negb (forallb fits_c_int [year; month; day; hour; minute])
  then Raise OverflowError
  else if negb ((1 <=? year) && (year <=? 9999)) then Raise ValueError
  else if negb ((1 <=? month) && (month <=? 12)) then Raise ValueError
  else if negb ((1 <=? day) && (day <=? days_in_month year month))
  then Raise ValueError
  else if negb ((0 <=? hour) && (hour <=? 23)) then Raise ValueError
  else if negb ((0 <=? minute) && (minute <=? 59)) then Raise ValueError
  else Ok (wall_clock year month day hour minute).

(** ** The fixture record (the dict built by both parsers) *)

Record Match := mkMatch {
  home_team : str;
  away_team : str;
  datetime : Z;
  venue : str;
  source : str
}.

(** ** Parser A: the official site of Beitar Jerusalem

    The markup reaches the parser through BeautifulSoup. What the parser
    reads of each [game_list_item] element is: whether it has a
    [teams_names] child, and then the stripped text of its [home] and
    [away] children when they exist; and the stripped text of its
    [game_info] child when it exists. *)

Record TeamsNames := mkTeamsNames {
  home : option str;
  away : option str
}.

Record GameListItem := mkGameListItem {
  teams_names : option TeamsNames;
  game_info : option str
}.

(** [r"(\d{2}/\d{2}/\d{2})\s*->\s*(\d{2}:\d{2})"] *)
Definition INFO_RE : list Re.item :=
  [Re.Open; Re.Digits 2; Re.Chr 47; Re.Digits 2; Re.Chr 47; Re.Digits 2;
   Re.Close; Re.Spaces; Re.Chr 45; Re.Chr 62; Re.Spaces;
   Re.Open; Re.Digits 2; Re.Chr 58; Re.Digits 2; Re.Close]%N.

(** [a, b = xs] and [a, b, c = xs] *)
Definition unpack2 {A} (xs : list A) : result (A * A) :=
  match xs with
  | [a; b] => Ok (a, b)
  | _ => Raise ValueError
  end.

Definition unpack3 {A} (xs : list A) : result (A * A * A) :=
  match xs with
  | [a; b; c] => Ok (a, b, c)
  | _ => Raise ValueError
  end.

(** [hour, minute = map(int, s.split(":"))]. Every way this statement can
    fail (a piece that is no number, fewer or more than two pieces) raises
    ValueError. *)
Definition hour_minute (s : str) : result (Z * Z) :=
  '(h, m) ← unpack2 (split 58%N s);
  hour ← Int.int h;
  minute ← Int.int m;
  mret (hour, minute).

(** Lines 83-84 and 187-188: an hour below 10 stands for "to be
    announced". *)
Definition tbd_default (hm : Z * Z) : Z * Z :=
  let '(hour, minute) := hm in
  if hour <? 10 then (DEFAULT_HOUR, DEFAULT_MINUTE) else (hour, minute).

(** Lines 66-69. *)
Definition beitar_included (home_name away_name : str) : bool :=
  let is_beitar_home := contains BEITAR_KW home_name in
  let is_derby :=
    (contains BEITAR_KW home_name && contains HAPOEL_JLM_KW away_name)
    || (contains HAPOEL_JLM_KW home_name && contains BEITAR_KW away_name) in
  negb (negb is_beitar_home && negb is_derby).

(** Lines 79-84: the kickoff time of day from the captured [HH:MM]. *)
Definition beitar_time (time_part : str) : result (Z * Z) :=
  hm ← hour_minute time_part;
  mret (tbd_default hm).

(** The body of the loop over the items: [Ok None] where the script says
    [continue], [Ok (Some m)] where it appends [m]. *)
Definition beitar_item (now : Z) (item : GameListItem)
  : result (option Match) :=
  match teams_names item with
  | None => Ok None
  | Some teams_div =>
      let home_name := default [] (home teams_div) in
      let away_name := default [] (away teams_div) in
      if negb (beitar_included home_name away_name) then Ok None
      else
        let info_text := default [] (game_info item) in
        match Re.search INFO_RE info_text with
        | Some [date_part; time_part] =>
            '(day, month, year) ← unpack3 (split 47%N date_part);
            '(hour, minute) ← beitar_time time_part;
            y ← Int.int year;
            mo ← Int.int month;
            d ← Int.int day;
            match_dt ← datetime_new (2000 + y) mo d hour minute;
            if match_dt <? now then Ok None
            else Ok (Some {| home_team := home_name;
                             away_team := away_name;
                             datetime := match_dt;
                             venue := lit "Teddy Stadium";
                             source := lit "beitar" |})
        | _ => Ok None
        end
  end.

Fixpoint beitar_loop (now : Z) (items : list GameListItem)
    (matches : list Match) : result (list Match) :=
  match items with
  | [] => Ok matches
  | item :: items' =>
      match beitar_item now item with
      | Raise e => Raise e
      | Ok None => beitar_loop now items' matches
      | Ok (Some m) => beitar_loop now items' (matches ++ [m])
      end
  end.

(** [fetch_beitar_matches], from the parsed page on; [now] is the clock
    reading of line 49. *)
Definition fetch_beitar_matches (items : list GameListItem) (now : Z)
  : result (list Match) :=
  beitar_loop now items [].

(** ** Parser B: the fan site of Hapoel Jerusalem

    The input is [lines], the list built on line 119. *)

(** ["משחקים קרובים"] *)
Definition UPCOMING : str :=
  [1502; 1513; 1495; 1511; 1497; 1501; 32; 1511; 1512; 1493; 1489; 1497;
   1501]%N.
(** ["משחקים שהסתיימו"] *)
Definition FINISHED : str :=
  [1502; 1513; 1495; 1511; 1497; 1501; 32; 1513; 1492; 1505; 1514; 1497;
   1497; 1502; 1493]%N.
(** ["שעה"], ["מגרש"], ["אורחת"], ["מארחת"], ["תאריך"], ["תוצאה"] *)
Definition COL_TIME : str := [1513; 1506; 1492]%N.
Definition COL_VENUE : str := [1502; 1490; 1512; 1513]%N.
Definition COL_GUEST : str := [1488; 1493; 1512; 1495; 1514]%N.
Definition COL_HOME : str := [1502; 1488; 1512; 1495; 1514]%N.
Definition COL_DATE : str := [1514; 1488; 1512; 1497; 1498]%N.
Definition COL_RESULT : str := [1514; 1493; 1510; 1488; 1492]%N.
(** ["טדי"] *)
Definition TEDDY_KW : str := [1496; 1491; 1497]%N.

(** [x in (a, b, ...)] *)
Definition among (x : str) (xs : list str) : bool := bool_decide (x ∈ xs).

(** [r"(\d{2}/\d{2}/\d{4})$"], and the same without the group. *)
Definition DATE_RE : list Re.item :=
  [Re.Open; Re.Digits 2; Re.Chr 47; Re.Digits 2; Re.Chr 47; Re.Digits 4;
   Re.Close; Re.Eos]%N.
Definition DATE_RE' : list Re.item :=
  [Re.Digits 2; Re.Chr 47; Re.Digits 2; Re.Chr 47; Re.Digits 4; Re.Eos]%N.

(** [r"\d{2}:\d{2}"] *)
Definition TIME_RE : list Re.item :=
  [Re.Digits 2; Re.Chr 58; Re.Digits 2]%N.

(** [lines.index(x)] *)
Fixpoint index_of (x : str) (lines : list str) : option nat :=
  match lines with
  | [] => None
  | line :: lines' =>
      if bool_decide (line = x) then Some 0%nat
      else S <$> index_of x lines'
  end.

(** Lines 132-134, with [rest] the lines from index [i] on. *)
Fixpoint skip_header_row (i : nat) (rest : list str) : nat :=
  match rest with
  | line :: rest' =>
      if among line [COL_TIME; COL_VENUE; COL_GUEST; COL_HOME; COL_DATE]
      then skip_header_row (S i) rest'
      else i
  | [] => i
  end.

(** Lines 158-165, entered with [j = n - 1]: the loop runs while
    [j >= start_idx], so it is over once [n] is 0. The lookup cannot
    fail, [j] being below the index of the date line. *)
Fixpoint walk_back (lines : list str) (start_idx : nat) (n : nat)
    (preceding : list str) : list str :=
  match n with
  | O => preceding
  | S j =>
      if bool_decide (start_idx ≤ j)%nat
         && bool_decide (length preceding < 4)%nat
      then
        match lines !! j with
        | Some prev =>
            if bool_decide (is_Some (Re.rmatch DATE_RE' prev)) then preceding
            else if among prev [COL_TIME; COL_VENUE; COL_GUEST; COL_HOME;
                                COL_DATE; UPCOMING]
            then preceding
            else walk_back lines start_idx j (prev :: preceding)
        | None => preceding
        end
      else preceding
  end.

(** [xs[-k] if len(xs) >= k else ""] *)
Definition from_end (xs : list str) (k : nat) : str :=
  default [] (rev xs !! (k - 1)%nat).

(** Lines 173-177. *)
Definition hapoel_included (home_team guest_team venue : str) : bool :=
  let is_hapoel_home := contains HAPOEL_JLM_KW home_team in
  let is_teddy := contains TEDDY_KW venue in
  let is_derby :=
    (contains BEITAR_KW home_team && contains HAPOEL_JLM_KW guest_team)
    || (contains HAPOEL_JLM_KW home_team && contains BEITAR_KW guest_team) in
  (is_hapoel_home && is_teddy) || is_derby.

(** Lines 182-188: the kickoff time of day from the time slot. *)
Definition hapoel_time (time_str : str) : result (Z * Z) :=
  hm ← (if negb (bool_decide (time_str = []))
           && bool_decide (is_Some (Re.rmatch TIME_RE time_str))
        then hour_minute time_str
        else Ok (DEFAULT_HOUR, DEFAULT_MINUTE));
  mret (tbd_default hm).

(** Lines 152-205, the work done at a date line found at index [i]:
    [Ok None] where the script moves on without a fixture, [Ok (Some m)]
    where it appends [m]. *)
Definition hapoel_row (lines : list str) (start_idx : nat) (now : Z)
    (i : nat) (date_str : str) : result (option Match) :=
  let preceding := walk_back lines start_idx i [] in
  let home_team := from_end preceding 1 in
  let guest_team := from_end preceding 2 in
  let venue := from_end preceding 3 in
  let time_str := from_end preceding 4 in
  if negb (hapoel_included home_team guest_team venue) then Ok None
  else
    '(day, month, year) ← unpack3 (split 47%N date_str);
    '(hour, minute) ← hapoel_time time_str;
    y ← Int.int year;
    mo ← Int.int month;
    d ← Int.int day;
    match_dt ← datetime_new y mo d hour minute;
    if match_dt <? now then Ok None
    else Ok (Some {| home_team := home_team;
                     away_team := guest_team;
                     datetime := match_dt;
                     venue := lit "Teddy Stadium";
                     source := lit "hapoel" |}).

(** Lines 139-207, with [rest] the lines from index [i] on. *)
Fixpoint hapoel_loop (lines : list str) (start_idx : nat) (now : Z)
    (i : nat) (rest : list str) (matches : list Match)
  : result (list Match) :=
  match rest with
  | [] => Ok matches
  | line :: rest' =>
      if among line [FINISHED; COL_TIME; COL_RESULT] then Ok matches
      else if among line [COL_GUEST; COL_HOME; COL_DATE] then Ok matches
      else
        match Re.rmatch DATE_RE line with
        | Some [date_str] =>
            match hapoel_row lines start_idx now i date_str with
            | Raise e => Raise e
            | Ok None => hapoel_loop lines start_idx now (S i) rest' matches
            | Ok (Some m) =>
                hapoel_loop lines start_idx now (S i) rest' (matches ++ [m])
            end
        | _ => hapoel_loop lines start_idx now (S i) rest' matches
        end
  end.

(** [fetch_hapoel_matches], from [lines] on; [now] is the clock reading of
    line 122. *)
Definition fetch_hapoel_matches (lines : list str) (now : Z)
  : result (list Match) :=
  match index_of UPCOMING lines with
  | None => Ok []
  | Some start_idx =>
      let i := skip_header_row (S start_idx) (drop (S start_idx) lines) in
      hapoel_loop lines start_idx now i (drop i lines) []
  end.

(** ** Reconciler *)

(** [sorted(ms, key=lambda m: m["datetime"])]. Python's sort is stable, and
    the stable ascending arrangement of a list is unique: each element goes
    in front of the first element that is not strictly earlier. *)
Fixpoint insert_by_datetime (m : Match) (l : list Match) : list Match :=
  match l with
  | [] => [m]
  | x :: l' =>
      if datetime x <? datetime m then x :: insert_by_datetime m l'
      else m :: x :: l'
  end.

Fixpoint sorted_by_datetime (ms : list Match) : list Match :=
  match ms with
  | [] => []
  | m :: ms' => insert_by_datetime m (sorted_by_datetime ms')
  end.

(** [tuple(sorted([m["home_team"], m["away_team"]]))] *)
Definition teams (m : Match) : str * str :=
  if str_lt (away_team m) (home_team m)
  then (away_team m, home_team m)
  else (home_team m, away_team m).

(** The test of line 225, for candidate [m] against accepted [existing]. *)
Definition is_duplicate (m existing : Match) : bool :=
  bool_decide (teams m = teams existing)
  && (Z.abs (timedelta_days (datetime m - datetime existing)) <=? 3).

(** The inner [for j, existing in enumerate(unique)] up to its [break]:
    the first index whose entry is a duplicate of [m], with that entry. *)
Fixpoint first_duplicate (m : Match) (unique : list Match) (j : nat)
  : option (nat * Match) :=
  match unique with
  | [] => None
  | existing :: rest =>
      if is_duplicate m existing then Some (j, existing)
      else first_duplicate m rest (S j)
  end.

(** One round of the outer loop over [sorted_matches]. *)
Definition dedup_step (unique : list Match) (m : Match) : list Match :=
  match first_duplicate m unique 0 with
  | Some (j, existing) =>
      let home_is_hapoel := contains HAPOEL_JLM_KW (home_team existing) in
      if home_is_hapoel && bool_decide (source m = lit "hapoel")
      then <[j:=m]> unique
      else if negb home_is_hapoel && bool_decide (source m = lit "beitar")
      then <[j:=m]> unique
      else unique
  | None => unique ++ [m]
  end.

Definition deduplicate_matches (all_matches : list Match) : list Match :=
  let sorted_matches := sorted_by_datetime all_matches in
  let unique := foldl dedup_step [] sorted_matches in
  sorted_by_datetime unique.

(** Lines 275-282 of [main]: both parsers, then the reconciler. *)
Definition reconciled (items : list GameListItem) (now_a : Z)
    (lines : list str) (now_b : Z) : result (list Match) :=
  beitar ← fetch_beitar_matches items now_a;
  hapoel ← fetch_hapoel_matches lines now_b;
  mret (deduplicate_matches (beitar ++ hapoel)).

(** ** Sample data

    Team names as the sites print them, in Hebrew: Beitar Jerusalem
    (written with a double quote mark before its last letter), Hapoel
    Jerusalem (the keyword itself) and Maccabi Haifa. *)

Definition BEITAR_JLM : str :=
  [1489; 1497; 1514; 34; 1512; 32; 1497; 1512; 1493; 1513; 1500; 1497;
   1501]%N.
Definition HAPOEL_JLM : str := HAPOEL_JLM_KW.
Definition MACCABI_HAIFA : str :=
  [1502; 1499; 1489; 1497; 32; 1495; 1497; 1508; 1492]%N.

Definition fixture (home_name away_name : str) (kickoff : Z) (src : string)
  : Match :=
  {| home_team := home_name; away_team := away_name; datetime := kickoff;
     venue := lit "Teddy Stadium"; source := lit src |}.

(** The derby as Beitar's site lists it, as Hapoel's site lists it a day
    later with the teams swapped, and a second derby a week later. *)
Definition derby_beitar : Match :=
  fixture BEITAR_JLM HAPOEL_JLM (wall_clock 2025 3 1 20 30) "beitar".
Definition derby_hapoel : Match :=
  fixture HAPOEL_JLM BEITAR_JLM (wall_clock 2025 3 2 18 0) "hapoel".
Definition derby_return : Match :=
  fixture HAPOEL_JLM BEITAR_JLM (wall_clock 2025 3 8 20 30) "hapoel".
(** A league game of another pairing on the day of [derby_hapoel]. *)
Definition haifa_game : Match :=
  fixture HAPOEL_JLM MACCABI_HAIFA (wall_clock 2025 3 2 18 0) "hapoel".

(** A [game_list_item] block of Beitar's site with both team names and
    the given text in its info field: Beitar at home to Maccabi Haifa. *)
Definition sample_item (info_text : str) : GameListItem :=
  {| teams_names := Some {| home := Some BEITAR_JLM;
                            away := Some MACCABI_HAIFA |};
     game_info := Some info_text |}.

(** The upcoming section of Hapoel's site with its header row and one row:
    the given time slot, the venue, Maccabi Haifa as guest, Hapoel
    Jerusalem as host, 1 January 2030. *)
Definition sample_lines (time_slot : str) : list str :=
  [UPCOMING; COL_TIME; COL_VENUE; COL_GUEST; COL_HOME; COL_DATE;
   time_slot; TEDDY_KW; MACCABI_HAIFA; HAPOEL_JLM; lit "01/01/2030"].

(** The text [HH:MM] of an hour and a minute below 100, in ASCII digits. *)
Definition two_digits (n : Z) : str :=
  [Z.to_N (48 + n / 10); Z.to_N (48 + n mod 10)].
Definition clock_text (hour minute : Z) : str :=
  two_digits hour ++ [58%N] ++ two_digits minute.

(** ** Vocabulary of the properties *)

(** Ascending kickoff order. *)
Definition kickoff_le (a b : Match) : Prop := datetime a ≤ datetime b.

(** The two records name the same two teams, in either order. *)
Definition same_pairing (a b : Match) : Prop :=
  (home_team a = home_team b ∧ away_team a = away_team b)
  ∨ (home_team a = away_team b ∧ away_team a = home_team b).

(** Records of one pairing are at least four full days apart. *)
Definition far_apart (a b : Match) : Prop :=
  teams a = teams b → 4 * US_PER_DAY ≤ Z.abs (datetime a - datetime b).

(** [R] holds between every entry and every later entry. *)
Fixpoint pairwise {A} (R : relation A) (l : list A) : Prop :=
  match l with
  | [] => True
  | x :: l' => Forall (R x) l' ∧ pairwise R l'
  end.

(** A line at which the backward walk of lines 158-165 stops: a date line,
    a column label or the section marker. *)
Definition row_boundary (line : str) : bool :=
  bool_decide (is_Some (Re.rmatch DATE_RE' line))
  || among line [COL_TIME; COL_VENUE; COL_GUEST; COL_HOME; COL_DATE;
                 UPCOMING].

(** What a later clock reading makes of the outcome for one candidate. *)
Definition later_clock (now : Z) (r : result (option Match))
  : result (option Match) :=
  match r with
  | Ok (Some m) => if datetime m <? now then Ok None else Ok (Some m)
  | _ => r
  end.

(** The outcome under a later clock reading, from the outcome under an
    earlier one: the same exception, or the fixtures not before the later
    reading. *)
Definition at_later_clock (now : Z) (r : result (list Match))
  : result (list Match) :=
  match r with
  | Ok ms => Ok (filter (λ m, now ≤ datetime m) ms)
  | Raise e => Raise e
  end.

(** * Properties *)

(** ** Text *)

Section text_facts.
Implicit Types a b : str.

Lemma str_lt_irrefl a : str_lt a a = false.
Proof.
  induction a as [|x a IH]; simpl; [done|].
  by rewrite N.ltb_irrefl.
Qed.

Lemma str_lt_asym a b : str_lt a b = true → str_lt b a = false.
Proof.
  revert b. induction a as [|x a IH]; intros [|y b]; simpl; try done.
  destruct (N.ltb_spec x y), (N.ltb_spec y x); try done; try lia.
  apply IH.
Qed.

Lemma str_lt_total a b : str_lt a b = false → str_lt b a = false → a = b.
Proof.
  revert b. induction a as [|x a IH]; intros [|y b]; simpl; try done.
  destruct (N.ltb_spec x y), (N.ltb_spec y x); try done.
  intros. f_equal; [lia|by apply IH].
Qed.

End text_facts.

(** ** Stable sort by kickoff *)

Section sorting_facts.
Implicit Types (m : Match) (l : list Match).

Lemma insert_by_datetime_perm m l : insert_by_datetime m l ≡ₚ m :: l.
Proof.
  induction l as [|x l IH]; simpl; [done|].
  case_match; [|done]. by rewrite IH, Permutation_swap.
Qed.

Lemma sorted_by_datetime_perm l : sorted_by_datetime l ≡ₚ l.
Proof.
  induction l as [|m l IH]; simpl; [done|].
  by rewrite insert_by_datetime_perm, IH.
Qed.

Lemma elem_of_sorted_by_datetime m l : m ∈ sorted_by_datetime l ↔ m ∈ l.
Proof. by rewrite sorted_by_datetime_perm. Qed.

Lemma insert_by_datetime_sorted m l :
  StronglySorted kickoff_le l →
  StronglySorted kickoff_le (insert_by_datetime m l).
Proof.
  induction 1 as [|x l Hl IH Hx]; simpl.
  { repeat constructor. }
  destruct (Z.ltb_spec (datetime x) (datetime m)) as [Hlt|Hge].
  - constructor; [done|].
    rewrite insert_by_datetime_perm. constructor; [|done].
    unfold kickoff_le. lia.
  - constructor; [by constructor|].
    constructor; [done|].
    eapply Forall_impl; [exact Hx|]. unfold kickoff_le. simpl. lia.
Qed.

Lemma sorted_by_datetime_sorted l :
  StronglySorted kickoff_le (sorted_by_datetime l).
Proof.
  induction l as [|m l IH]; simpl; [constructor|].
  by apply insert_by_datetime_sorted.
Qed.

(** Sorting leaves an ascending list as it is. *)
Lemma sorted_by_datetime_id l :
  StronglySorted kickoff_le l → sorted_by_datetime l = l.
Proof.
  induction 1 as [|x l Hl IH Hx]; simpl; [done|].
  rewrite IH. destruct Hx as [|y l Hxy _]; simpl; [done|].
  unfold kickoff_le in Hxy.
  destruct (Z.ltb_spec (datetime y) (datetime x)); [lia|done].
Qed.

Lemma StronglySorted_lookup_le l i j a b :
  StronglySorted kickoff_le l →
  (i ≤ j)%nat → l !! i = Some a → l !! j = Some b → datetime a ≤ datetime b.
Proof.
  intros Hl. revert i j. induction Hl as [|x l Hl IH Hx]; intros i j Hij Ha Hb.
  { done. }
  destruct i as [|i], j as [|j]; simplify_eq/=; try lia.
  - rewrite Forall_forall in Hx. apply Hx. by eapply list_elem_of_lookup_2.
  - eapply (IH i j); [lia|done..].
Qed.

End sorting_facts.

(** ** Pairwise relations *)

Section pairwise_facts.
Context {A : Type} (R : relation A).
Implicit Types l : list A.

Lemma pairwise_app l1 l2 :
  pairwise R (l1 ++ l2) ↔
    pairwise R l1 ∧ pairwise R l2 ∧ ∀ x y, x ∈ l1 → y ∈ l2 → R x y.
Proof.
  induction l1 as [|x l1 IH]; simpl.
  { split; [intros; split_and!; [done..|]|tauto]. by intros ?? ?%elem_of_nil. }
  rewrite IH, Forall_app, !Forall_forall.
  setoid_rewrite elem_of_cons. intuition (subst; eauto).
Qed.

Lemma pairwise_perm `{!Symmetric R} l1 l2 :
  l1 ≡ₚ l2 → pairwise R l1 → pairwise R l2.
Proof.
  induction 1 as [|x l1 l2 Hp IH|x y l|l1 l2 l3 _ IH1 _ IH2]; simpl.
  - done.
  - intros [Hx Hl]. split; [by rewrite <-Hp|by apply IH].
  - intros [Hy [Hx Hl]]. inv Hy. repeat split; try done.
    constructor; [by symmetry|done].
  - auto.
Qed.

Lemma pairwise_lookup l i j a b :
  pairwise R l → (i < j)%nat → l !! i = Some a → l !! j = Some b → R a b.
Proof.
  revert i j. induction l as [|x l IH]; intros i j Hl Hij Ha Hb; [done|].
  destruct Hl as [Hx Hl].
  destruct i as [|i], j as [|j]; simplify_eq/=; try lia.
  - rewrite Forall_forall in Hx. apply Hx. by eapply list_elem_of_lookup_2.
  - eapply (IH i j); [done|lia|done..].
Qed.

End pairwise_facts.

(** ** The reconciler's loop *)

Section reconciler_facts.
Implicit Types (m e a b : Match) (u s l : list Match).

Lemma timedelta_days_far d :
  4 * US_PER_DAY ≤ Z.abs d → 3 < Z.abs (timedelta_days d).
Proof.
  unfold timedelta_days, US_PER_DAY. intros Hd.
  pose proof (Z_div_mod_eq_full d 86400000000).
  pose proof (Z.mod_pos_bound d 86400000000). lia.
Qed.

Lemma timedelta_days_near d :
  0 ≤ d → Z.abs (timedelta_days d) ≤ 3 → d < 4 * US_PER_DAY.
Proof.
  unfold timedelta_days, US_PER_DAY. intros Hd.
  pose proof (Z_div_mod_eq_full d 86400000000).
  pose proof (Z.mod_pos_bound d 86400000000). lia.
Qed.

#[global] Instance far_apart_sym : Symmetric far_apart.
Proof. intros a b Hab Ht. specialize (Hab (eq_sym Ht)). lia. Qed.

Lemma teams_same_pairing a b : teams a = teams b ↔ same_pairing a b.
Proof.
  unfold teams, same_pairing.
  destruct (str_lt (away_team a) (home_team a)) eqn:Ha,
           (str_lt (away_team b) (home_team b)) eqn:Hb; split;
    try (intros [= -> ->]; tauto).
  - intros [[Hh Haw]|[Hh Haw]]; [congruence|].
    rewrite Hh, Haw in Ha. apply str_lt_asym in Ha. congruence.
  - intros [[Hh Haw]|[Hh Haw]]; [congruence|]. by rewrite Hh, Haw.
  - intros [[Hh Haw]|[Hh Haw]]; [congruence|]. by rewrite Hh, Haw.
  - intros [[Hh Haw]|[Hh Haw]]; [by rewrite Hh, Haw|].
    rewrite Hh, Haw in Ha |- *.
    by rewrite (str_lt_total _ _ Ha Hb).
Qed.

(** A candidate that is not flagged against an earlier record lies far from
    it. *)
Lemma not_duplicate_far m e :
  datetime e ≤ datetime m → is_duplicate m e = false → far_apart e m.
Proof.
  unfold is_duplicate, far_apart. intros Hle Hdup Ht.
  rewrite bool_decide_eq_true_2 in Hdup by done. simpl in Hdup.
  apply Z.leb_gt in Hdup.
  destruct (decide (datetime m - datetime e < 4 * US_PER_DAY)) as [Hnear|];
    [|lia].
  pose proof (Z.div_pos (datetime m - datetime e) US_PER_DAY).
  pose proof (Z.div_lt_upper_bound (datetime m - datetime e) US_PER_DAY 4).
  unfold timedelta_days, US_PER_DAY in *. lia.
Qed.

Lemma duplicate_near m e :
  datetime e ≤ datetime m → is_duplicate m e = true →
  teams m = teams e ∧ datetime m - datetime e < 4 * US_PER_DAY.
Proof.
  unfold is_duplicate. intros Hle [Ht Hd]%andb_true_iff.
  apply bool_decide_eq_true in Ht. apply Z.leb_le in Hd.
  split; [done|]. apply timedelta_days_near; [lia|done].
Qed.

Lemma far_not_duplicate a b : far_apart a b → is_duplicate a b = false.
Proof.
  unfold is_duplicate, far_apart. intros Hfar.
  case_bool_decide as Ht; [|done]. simpl.
  apply Z.leb_gt. by apply timedelta_days_far, Hfar.
Qed.

Lemma first_duplicate_None m u j :
  first_duplicate m u j = None ↔ Forall (λ e, is_duplicate m e = false) u.
Proof.
  revert j. induction u as [|e u IH]; intros j; simpl.
  { split; [constructor|done]. }
  rewrite Forall_cons. destruct (is_duplicate m e); [by split; [|intros []]|].
  rewrite IH. tauto.
Qed.

Lemma first_duplicate_Some m u j0 j e :
  first_duplicate m u j0 = Some (j, e) →
  ∃ l1 l2, u = l1 ++ e :: l2 ∧ j = (j0 + length l1)%nat
           ∧ is_duplicate m e = true
           ∧ Forall (λ x, is_duplicate m x = false) l1.
Proof.
  revert j0. induction u as [|x u IH]; intros j0; simpl; [done|].
  destruct (is_duplicate m x) eqn:Hx.
  - intros [= <- <-]. exists [], u. simpl. split_and!; try done; lia.
  - intros (l1 & l2 & -> & -> & He & Hl1)%IH.
    exists (x :: l1), l2. simpl. split_and!; try done; try lia.
    by constructor.
Qed.

(** What one round does to the accepted list. *)
Lemma dedup_step_cases u m :
  (Forall (λ e, is_duplicate m e = false) u ∧ dedup_step u m = u ++ [m])
  ∨ (∃ l1 e l2,
        u = l1 ++ e :: l2 ∧ is_duplicate m e = true
        ∧ Forall (λ x, is_duplicate m x = false) l1
        ∧ (dedup_step u m = u ∨ dedup_step u m = l1 ++ m :: l2)).
Proof.
  unfold dedup_step.
  destruct (first_duplicate m u 0) as [[j e]|] eqn:Hfd.
  - right. apply first_duplicate_Some in Hfd as (l1 & l2 & -> & -> & He & Hl1).
    exists l1, e, l2. split_and!; try done.
    assert (<[(0 + length l1)%nat:=m]> (l1 ++ e :: l2) = l1 ++ m :: l2) as ->.
    { rewrite insert_app_r_alt by lia.
      by replace (0 + length l1 - length l1)%nat with 0%nat by lia. }
    repeat case_match; auto.
  - left. by apply first_duplicate_None in Hfd.
Qed.

Lemma elem_of_dedup_step u m x : x ∈ dedup_step u m → x ∈ u ∨ x = m.
Proof.
  destruct (dedup_step_cases u m)
    as [[_ ->]|(l1 & e & l2 & -> & _ & _ & [->| ->])].
  - rewrite elem_of_app, list_elem_of_singleton. tauto.
  - tauto.
  - rewrite !elem_of_app, !elem_of_cons. tauto.
Qed.

Lemma elem_of_foldl_dedup_step s u x :
  x ∈ foldl dedup_step u s → x ∈ u ∨ x ∈ s.
Proof.
  revert u. induction s as [|m s IH]; intros u; simpl; [tauto|].
  intros [[?| ->]%elem_of_dedup_step|?]%IH; rewrite elem_of_cons; tauto.
Qed.

(** The invariant of the outer loop: accepted records of one pairing stay
    four days apart, whichever branch a round takes. *)
Lemma dedup_step_pairwise u m :
  Forall (λ e, datetime e ≤ datetime m) u →
  pairwise far_apart u → pairwise far_apart (dedup_step u m).
Proof.
  intros Hle Hu.
  destruct (dedup_step_cases u m)
    as [[Hnd ->]|(l1 & e & l2 & -> & He & _ & [->| ->])]; [|done|].
  - apply pairwise_app. split_and!; [done|by repeat constructor|].
    intros x y Hx ->%list_elem_of_singleton.
    rewrite Forall_forall in Hle, Hnd. apply not_duplicate_far; auto.
  - apply pairwise_app in Hu as (Hl1 & [He2 Hl2] & Hcross).
    rewrite Forall_forall in Hle.
    assert (datetime e ≤ datetime m) as Hem.
    { apply Hle. rewrite elem_of_app, elem_of_cons. tauto. }
    destruct (duplicate_near m e Hem He) as [Ht Hnear].
    assert (∀ x, x ∈ l1 ++ l2 → far_apart x e → far_apart x m) as Hmove.
    { intros x Hx Hxe Hxm.
      assert (datetime x ≤ datetime m).
      { apply Hle. rewrite !elem_of_app, elem_of_cons in *. tauto. }
      specialize (Hxe ltac:(congruence)). lia. }
    apply pairwise_app. split_and!; [done| |].
    + split; [|done]. rewrite Forall_forall in He2 |- *.
      intros y Hy. symmetry. apply Hmove; [set_solver|].
      symmetry. by apply He2.
    + intros x y Hx [->|Hy]%elem_of_cons.
      * apply Hmove; [set_solver|]. apply Hcross; [done|left].
      * apply Hcross; [done|by right].
Qed.

Lemma foldl_dedup_step_pairwise s u :
  StronglySorted kickoff_le s →
  Forall (λ e, Forall (kickoff_le e) s) u →
  pairwise far_apart u → pairwise far_apart (foldl dedup_step u s).
Proof.
  intros Hs. revert u.
  induction Hs as [|m s Hs IH Hm]; intros u Hle Hu; simpl; [done|].
  apply IH.
  - rewrite Forall_forall in Hle |- *.
    intros x [Hx| ->]%elem_of_dedup_step; [|done].
    specialize (Hle x Hx). by inv Hle.
  - apply dedup_step_pairwise; [|done].
    eapply Forall_impl; [exact Hle|]. by inversion 1.
Qed.

Lemma deduplicate_matches_pairwise l :
  pairwise far_apart (deduplicate_matches l).
Proof.
  unfold deduplicate_matches.
  eapply pairwise_perm; [apply _|symmetry; apply sorted_by_datetime_perm|].
  apply foldl_dedup_step_pairwise;
    [apply sorted_by_datetime_sorted|constructor|done].
Qed.

(** On an ascending list whose records of one pairing are far apart, the
    loop accepts every record. *)
Lemma foldl_dedup_step_id s u :
  StronglySorted kickoff_le (u ++ s) → pairwise far_apart (u ++ s) →
  foldl dedup_step u s = u ++ s.
Proof.
  revert u. induction s as [|m s IH]; intros u Hs Hp; simpl.
  { by rewrite app_nil_r. }
  destruct (dedup_step_cases u m)
    as [[_ ->]|(l1 & e & l2 & -> & He & _)].
  - rewrite IH; rewrite <-?app_assoc; done.
  - apply pairwise_app in Hp as (_ & _ & Hcross).
    rewrite far_not_duplicate in He; [done|].
    symmetry. apply Hcross; [|left].
    rewrite elem_of_app, elem_of_cons. tauto.
Qed.

End reconciler_facts.

(** ** The reconciler's contract *)

Section reconciler_contract.
Implicit Types (m e a b : Match) (u s l : list Match).

Lemma elem_of_deduplicate_matches l x : x ∈ deduplicate_matches l → x ∈ l.
Proof.
  unfold deduplicate_matches. rewrite elem_of_sorted_by_datetime.
  intros [[]%elem_of_nil|Hx]%elem_of_foldl_dedup_step.
  by apply elem_of_sorted_by_datetime.
Qed.

(** C9: the list returned by [deduplicate_matches] is in ascending order of
    kickoff: every record's kickoff is at most that of each record after
    it. *)
Theorem deduplicate_matches_sorted l :
  StronglySorted kickoff_le (deduplicate_matches l).
Proof. apply sorted_by_datetime_sorted. Qed.

(** C2: in the list returned by [deduplicate_matches], two records at
    different positions that name the same two teams (in either order) have
    kickoffs more than three days apart, and the duplicate test of the loop
    fails on them. This covers every pair of positions, also after a
    replacement. *)
Theorem deduplicate_matches_exhaustive l i j a b :
  i ≠ j →
  deduplicate_matches l !! i = Some a →
  deduplicate_matches l !! j = Some b →
  same_pairing a b →
  3 * US_PER_DAY < Z.abs (datetime a - datetime b)
  ∧ is_duplicate a b = false.
Proof.
  intros Hij Ha Hb Hsame%teams_same_pairing.
  pose proof (deduplicate_matches_pairwise l) as Hp.
  assert (far_apart a b) as Hfar.
  { destruct (decide (i < j)%nat).
    - by eapply (pairwise_lookup _ _ i j).
    - symmetry. eapply (pairwise_lookup _ _ j i); [done|lia|done..]. }
  split; [|by apply far_not_duplicate].
  specialize (Hfar Hsame). unfold US_PER_DAY in *. lia.
Qed.

Lemma deduplicate_matches_exhaustive_witness :
  3 * US_PER_DAY < Z.abs (datetime derby_beitar - datetime derby_return)
  ∧ is_duplicate derby_beitar derby_return = false.
Proof.
  apply (deduplicate_matches_exhaustive
           [derby_return; derby_beitar] 0 1 derby_beitar derby_return).
  - lia.
  - reflexivity.
  - reflexivity.
  - right. split; reflexivity.
Defined.

(** C4: [deduplicate_matches] is idempotent. *)
Theorem deduplicate_matches_idempotent l :
  deduplicate_matches (deduplicate_matches l) = deduplicate_matches l.
Proof.
  assert (StronglySorted kickoff_le (deduplicate_matches l)) as Hs
    by apply sorted_by_datetime_sorted.
  pose proof (deduplicate_matches_pairwise l) as Hp.
  generalize dependent (deduplicate_matches l). intros out Hs Hp.
  unfold deduplicate_matches.
  rewrite (sorted_by_datetime_id out) by done.
  rewrite foldl_dedup_step_id by done.
  by apply sorted_by_datetime_id.
Qed.

(** C3: when the loop finds a duplicate of candidate [m] (the first accepted
    record [existing], at index [j], that names the same two teams and lies
    within the day window), the home-site rule picks the survivor: [m]
    takes the place of [existing] if the home team of [existing] contains
    the Hapoel Jerusalem keyword and [m] comes from "hapoel", or if it does
    not contain the keyword and [m] comes from "beitar"; otherwise [m] is
    dropped and the accepted list is unchanged. Either way the accepted
    list keeps its length: one record stands for the two. *)
Theorem tie_break_home_site unique m j existing :
  first_duplicate m unique 0 = Some (j, existing) →
  (unique !! j = Some existing ∧ same_pairing m existing
   ∧ Z.abs (timedelta_days (datetime m - datetime existing)) ≤ 3)
  ∧ (contains HAPOEL_JLM_KW (home_team existing) = true →
     source m = lit "hapoel" → dedup_step unique m = <[j:=m]> unique)
  ∧ (contains HAPOEL_JLM_KW (home_team existing) = false →
     source m = lit "beitar" → dedup_step unique m = <[j:=m]> unique)
  ∧ (¬ (contains HAPOEL_JLM_KW (home_team existing) = true
        ∧ source m = lit "hapoel") →
     ¬ (contains HAPOEL_JLM_KW (home_team existing) = false
        ∧ source m = lit "beitar") →
     dedup_step unique m = unique)
  ∧ length (dedup_step unique m) = length unique.
Proof.
  intros Hfd. unfold dedup_step. rewrite Hfd.
  apply first_duplicate_Some in Hfd as (l1 & l2 & -> & -> & He & _).
  simpl. split_and!.
  - by rewrite list_lookup_middle.
  - apply teams_same_pairing.
    apply andb_true_iff in He as [Ht _]. by apply bool_decide_eq_true in Ht.
  - apply andb_true_iff in He as [_ Hd]. by apply Z.leb_le in Hd.
  - intros -> ->. by rewrite bool_decide_eq_true_2.
  - intros -> ->. rewrite andb_false_l. simpl negb.
    by rewrite (bool_decide_eq_true_2 (lit "beitar" = lit "beitar")).
  - intros H1 H2. destruct (contains _ _); simpl;
      case_bool_decide; try done; [destruct H1|destruct H2]; done.
  - repeat case_match; by rewrite ?length_insert.
Qed.

Lemma tie_break_home_site_witness :
  dedup_step [derby_beitar] derby_hapoel = [derby_beitar].
Proof.
  destruct (tie_break_home_site [derby_beitar] derby_hapoel 0 derby_beitar)
    as (_ & _ & _ & Hdrop & _); [reflexivity|].
  apply Hdrop; intros [H1 H2]; discriminate.
Defined.

(** The scenario of the specification: Beitar's site lists the derby on
    1 March 20:30, Hapoel's site lists it with the teams swapped on 2 March
    18:00; one record survives. *)
Example derby_listed_twice :
  deduplicate_matches [derby_beitar; derby_hapoel] = [derby_beitar]
  ∧ deduplicate_matches [derby_hapoel; derby_beitar] = [derby_beitar].
Proof. split; reflexivity. Qed.

Lemma different_pairing_not_duplicate m e :
  teams e ≠ teams m → is_duplicate m e = false.
Proof.
  intros Hne. unfold is_duplicate.
  rewrite bool_decide_eq_false_2; [done|congruence].
Qed.

Lemma foldl_dedup_step_keeps s u m :
  m ∈ u → Forall (λ x, teams x ≠ teams m) s → m ∈ foldl dedup_step u s.
Proof.
  intros Hm Hs. revert u Hm.
  induction Hs as [|x s Hx Hs IH]; intros u Hm; simpl; [done|].
  apply IH.
  destruct (dedup_step_cases u x)
    as [[_ ->]|(l1 & e & l2 & -> & He & _ & [->| ->])]; [|done|].
  - apply elem_of_app. by left.
  - rewrite elem_of_app, elem_of_cons in Hm |- *.
    destruct Hm as [?|[->|?]]; [tauto| |tauto].
    apply andb_true_iff in He as [Ht _]. by apply bool_decide_eq_true in Ht.
Qed.

(** C10, as the reconciler has it: an input record whose sorted pair of
    team names differs from that of every other input record is in the
    output, however close the kickoffs; and every output record is one of
    the input records. *)
Theorem different_pairing_kept l1 m l2 :
  Forall (λ x, teams x ≠ teams m) (l1 ++ l2) →
  m ∈ deduplicate_matches (l1 ++ m :: l2)
  ∧ ∀ x, x ∈ deduplicate_matches (l1 ++ m :: l2) → x ∈ l1 ++ m :: l2.
Proof.
  intros Hne. split; [|intros x; apply elem_of_deduplicate_matches].
  unfold deduplicate_matches. apply elem_of_sorted_by_datetime.
  assert (m ∈ sorted_by_datetime (l1 ++ m :: l2)) as Hm.
  { apply elem_of_sorted_by_datetime, elem_of_app. right. left. }
  apply list_elem_of_split in Hm as (s1 & s2 & Hsplit).
  assert (s1 ++ s2 ≡ₚ l1 ++ l2) as Hperm.
  { apply (Permutation_cons_inv (a:=m)).
    rewrite !Permutation_middle, <-Hsplit. apply sorted_by_datetime_perm. }
  rewrite <-Hperm in Hne. apply Forall_app in Hne as [Hs1 Hs2].
  rewrite Hsplit, foldl_app. simpl.
  apply foldl_dedup_step_keeps; [|done].
  destruct (dedup_step_cases (foldl dedup_step [] s1) m)
    as [[_ ->]|(k1 & e & k2 & Hu & He & _)].
  - apply elem_of_app. right. left.
  - rewrite different_pairing_not_duplicate in He; [done|].
    rewrite Forall_forall in Hs1. apply Hs1.
    assert (e ∈ foldl dedup_step [] s1) as He'.
    { rewrite Hu, elem_of_app, elem_of_cons. tauto. }
    by apply elem_of_foldl_dedup_step in He' as [[]%elem_of_nil|].
Qed.

Lemma different_pairing_kept_witness :
  haifa_game ∈ deduplicate_matches [derby_beitar; haifa_game; derby_hapoel].
Proof.
  apply (different_pairing_kept [derby_beitar] haifa_game [derby_hapoel]).
  repeat constructor; discriminate.
Defined.

(** C10 as worded fails: [derby_hapoel] and [haifa_game] are input records
    whose sorted name pairs differ, yet [derby_hapoel] is not in the
    output: it is dropped as a duplicate of [derby_beitar]. *)
Lemma pairwise_reading_counterexample :
  let l := [derby_beitar; haifa_game; derby_hapoel] in
  derby_hapoel ∈ l ∧ haifa_game ∈ l
  ∧ teams derby_hapoel ≠ teams haifa_game
  ∧ ¬ (derby_hapoel ∈ deduplicate_matches l
       ∧ haifa_game ∈ deduplicate_matches l).
Proof.
  cbv zeta. split_and!.
  - repeat constructor.
  - repeat constructor.
  - discriminate.
  - intros [Hin _].
    replace (deduplicate_matches _) with [derby_beitar; haifa_game] in Hin
      by reflexivity.
    rewrite !elem_of_cons, elem_of_nil in Hin.
    destruct Hin as [|[|[]]]; discriminate.
Qed.

End reconciler_contract.

(** ** The parsers *)

Section parser_facts.
Implicit Types (m : Match) (ms matches : list Match) (now : Z).

Lemma bind_Ok {A B} (r : result A) (k : A → result B) b :
  r ≫= k = Ok b → ∃ a, r = Ok a ∧ k a = Ok b.
Proof. destruct r as [a|e]; [by exists a|done]. Qed.

(** Follow a successful run through its binds, tuple patterns and
    tests. *)
Ltac follow_ok H :=
  repeat first
    [ apply bind_Ok in H as [? [_ H]]
    | match type of H with
      | context [let '(_, _) := ?p in _] => destruct p
      | context [if ?b then _ else _] => destruct b eqn:?
      end ];
  simplify_eq/=.

Lemma beitar_item_Some now item m :
  beitar_item now item = Ok (Some m) →
  now ≤ datetime m ∧ source m = lit "beitar".
Proof.
  unfold beitar_item. intros H.
  repeat case_match; simplify_eq.
  follow_ok H. split; [lia|done].
Qed.

Lemma beitar_loop_Ok now items matches ms (P : Match → Prop) :
  (∀ item m, beitar_item now item = Ok (Some m) → P m) →
  Forall P matches → beitar_loop now items matches = Ok ms → Forall P ms.
Proof.
  intros Hitem. revert matches.
  induction items as [|item items IH]; intros matches Hm; simpl.
  { by intros [= <-]. }
  destruct (beitar_item now item) as [[m|]|e] eqn:Hi; [| |done].
  - apply IH. apply Forall_app. split; [done|]. repeat constructor. eauto.
  - by apply IH.
Qed.

Lemma hapoel_row_Some lines start_idx now i date_str m :
  hapoel_row lines start_idx now i date_str = Ok (Some m) →
  now ≤ datetime m ∧ source m = lit "hapoel".
Proof.
  unfold hapoel_row. intros H.
  repeat case_match; simplify_eq.
  follow_ok H. split; [lia|done].
Qed.

Lemma hapoel_loop_Ok lines start_idx now i rest matches ms
    (P : Match → Prop) :
  (∀ i date_str m,
     hapoel_row lines start_idx now i date_str = Ok (Some m) → P m) →
  Forall P matches →
  hapoel_loop lines start_idx now i rest matches = Ok ms → Forall P ms.
Proof.
  intros Hrow. revert i matches.
  induction rest as [|line rest IH]; intros i matches Hm; simpl.
  { by intros [= <-]. }
  repeat case_match; simplify_eq; try (by intros [= <-]); try (by apply IH).
  apply IH. apply Forall_app. split; [done|]. repeat constructor. eauto.
Qed.

Lemma fetch_beitar_matches_Ok items now ms :
  fetch_beitar_matches items now = Ok ms →
  Forall (λ m, now ≤ datetime m ∧ source m = lit "beitar") ms.
Proof.
  apply beitar_loop_Ok; [|constructor].
  intros item m. apply beitar_item_Some.
Qed.

Lemma fetch_hapoel_matches_Ok lines now ms :
  fetch_hapoel_matches lines now = Ok ms →
  Forall (λ m, now ≤ datetime m ∧ source m = lit "hapoel") ms.
Proof.
  unfold fetch_hapoel_matches. destruct (index_of UPCOMING lines).
  - apply hapoel_loop_Ok; [|constructor].
    intros i date_str m. apply hapoel_row_Some.
  - intros [= <-]. constructor.
Qed.

Lemma index_of_None x lines : x ∉ lines → index_of x lines = None.
Proof.
  induction lines as [|line lines IH]; simpl; [done|].
  rewrite not_elem_of_cons. intros [Hne Hx].
  rewrite bool_decide_eq_false_2 by done. by rewrite IH.
Qed.

End parser_facts.

(** ** The parsers' contract *)

Section parser_contract.
Implicit Types (m : Match) (ms : list Match) (now : Z).

(** C1, as the parsers have it: no record returned by either parser, and
    hence none in the reconciled output, has its kickoff before the clock
    reading [now] of the parser that produced it; a candidate whose
    timestamp is before [now] is dropped. (A kickoff equal to [now] is
    kept.) *)
Theorem kickoff_not_before_now items now_a lines now_b :
  (∀ ms m, fetch_beitar_matches items now_a = Ok ms → m ∈ ms →
           now_a ≤ datetime m)
  ∧ (∀ ms m, fetch_hapoel_matches lines now_b = Ok ms → m ∈ ms →
             now_b ≤ datetime m)
  ∧ (∀ out m, reconciled items now_a lines now_b = Ok out → m ∈ out →
       (source m = lit "beitar" ∧ now_a ≤ datetime m)
       ∨ (source m = lit "hapoel" ∧ now_b ≤ datetime m)).
Proof.
  split_and!.
  - intros ms m Hms%fetch_beitar_matches_Ok Hm.
    rewrite Forall_forall in Hms. by apply Hms.
  - intros ms m Hms%fetch_hapoel_matches_Ok Hm.
    rewrite Forall_forall in Hms. by apply Hms.
  - intros out m Hout Hm. unfold reconciled in Hout.
    apply bind_Ok in Hout as (beitar & Ha%fetch_beitar_matches_Ok & Hout).
    apply bind_Ok in Hout as (hapoel & Hb%fetch_hapoel_matches_Ok & Hout).
    injection Hout as <-. rewrite Forall_forall in Ha, Hb.
    apply elem_of_deduplicate_matches, elem_of_app in Hm as [Hm|Hm].
    + left. destruct (Ha m Hm). done.
    + right. destruct (Hb m Hm). done.
Qed.

Lemma kickoff_not_before_now_witness :
  wall_clock 2029 12 31 0 0
  ≤ datetime (fixture HAPOEL_JLM MACCABI_HAIFA (wall_clock 2030 1 1 19 0)
                      "hapoel").
Proof.
  destruct (kickoff_not_before_now
              [] 0 (sample_lines (lit "19:00")) (wall_clock 2029 12 31 0 0))
    as (_ & Hb & _).
  eapply Hb; [reflexivity|]. left.
Defined.

(** C1 as worded fails at the boundary: a candidate whose timestamp equals
    [now] is returned by either parser and reaches the reconciled output,
    although its kickoff is not strictly after [now]. *)
Lemma kickoff_equal_to_now_is_kept :
  let now := wall_clock 2030 1 1 20 30 in
  let a := fixture BEITAR_JLM MACCABI_HAIFA now "beitar" in
  let b := fixture HAPOEL_JLM MACCABI_HAIFA now "hapoel" in
  fetch_beitar_matches [sample_item (lit "01/01/30 -> 20:30")] now = Ok [a]
  ∧ fetch_hapoel_matches (sample_lines (lit "20:30")) now = Ok [b]
  ∧ reconciled [sample_item (lit "01/01/30 -> 20:30")] now
               (sample_lines (lit "20:30")) now = Ok [a; b]
  ∧ ¬ (now < datetime a) ∧ ¬ (now < datetime b).
Proof. cbv zeta. split_and!; try reflexivity; simpl; lia. Qed.

(** C5: the time normalization maps a parsed hour below 10, whatever its
    minute, to the default kickoff time 20:30 and leaves an hour of 10 or
    more and its minute as they are; both parsers apply it to the hour and
    minute they read from a text [HH:MM]. *)
Theorem time_normalization hour minute :
  (DEFAULT_HOUR, DEFAULT_MINUTE) = (20, 30)
  ∧ (hour < 10 →
     tbd_default (hour, minute) = (DEFAULT_HOUR, DEFAULT_MINUTE))
  ∧ (10 ≤ hour → tbd_default (hour, minute) = (hour, minute))
  ∧ (0 ≤ hour < 100 → 0 ≤ minute < 100 →
     beitar_time (clock_text hour minute) = Ok (tbd_default (hour, minute))
     ∧ hapoel_time (clock_text hour minute)
       = Ok (tbd_default (hour, minute))).
Proof.
  unfold tbd_default at 1 2. split_and!; [done|intros Hh..].
  - by destruct (Z.ltb_spec hour 10); [|lia].
  - by destruct (Z.ltb_spec hour 10); [lia|].
  - intros Hm.
    assert (forallb (λ h, forallb (λ mi,
              bool_decide
                (beitar_time (clock_text h mi) = Ok (tbd_default (h, mi))
                 ∧ hapoel_time (clock_text h mi) = Ok (tbd_default (h, mi))))
              (seqZ 0 100)) (seqZ 0 100) = true) as Hall
      by (vm_compute; reflexivity).
    rewrite forallb_forall in Hall.
    specialize (Hall hour). rewrite <-list_elem_of_In, elem_of_seqZ in Hall.
    specialize (Hall ltac:(lia)). rewrite forallb_forall in Hall.
    specialize (Hall minute).
    rewrite <-list_elem_of_In, elem_of_seqZ in Hall.
    specialize (Hall ltac:(lia)). by apply bool_decide_eq_true in Hall.
Qed.

Lemma time_normalization_witness :
  (beitar_time (lit "01:59") = Ok (20, 30)
   ∧ hapoel_time (lit "01:59") = Ok (20, 30))
  ∧ (beitar_time (lit "19:00") = Ok (19, 0)
     ∧ hapoel_time (lit "19:00") = Ok (19, 0)).
Proof.
  split.
  - destruct (time_normalization 1 59) as (_ & _ & _ & Hparse).
    apply Hparse; lia.
  - destruct (time_normalization 19 0) as (_ & _ & _ & Hparse).
    apply Hparse; lia.
Defined.

(** C6: a pairing in which one name contains the Beitar keyword and the
    other the Hapoel Jerusalem keyword passes the inclusion test of both
    parsers, whichever of the two is the home team, and in Parser B
    whatever the venue field holds. *)
Theorem derby_included home_name away_name :
  (contains BEITAR_KW home_name = true
   ∧ contains HAPOEL_JLM_KW away_name = true)
  ∨ (contains HAPOEL_JLM_KW home_name = true
     ∧ contains BEITAR_KW away_name = true) →
  beitar_included home_name away_name = true
  ∧ ∀ venue, hapoel_included home_name away_name venue = true.
Proof.
  unfold beitar_included, hapoel_included.
  intros [[-> ->]|[-> ->]]; split; try intros venue; simpl;
    rewrite ?orb_true_r; try done.
  by destruct (contains BEITAR_KW home_name).
Qed.

Lemma derby_included_witness :
  beitar_included HAPOEL_JLM BEITAR_JLM = true
  ∧ ∀ venue, hapoel_included HAPOEL_JLM BEITAR_JLM venue = true.
Proof.
  apply (derby_included HAPOEL_JLM BEITAR_JLM).
  right. split; reflexivity.
Defined.

(** C7 on a time slot that carries seconds: the text passes the test of
    line 182, whose pattern is not anchored at the end, and the unpacking
    of line 183 raises ValueError; the parser does not fall back to the
    default time and does not return. *)
Theorem time_slot_with_seconds_raises now :
  hapoel_time (lit "19:00:00") = Raise ValueError
  ∧ fetch_hapoel_matches (sample_lines (lit "19:00:00")) now
    = Raise ValueError.
Proof. split; reflexivity. Qed.

(** The same page with the time slot [19:00], with no time slot text that
    looks like a time, and with a trailing letter. *)
Example time_slot_well_formed :
  fetch_hapoel_matches (sample_lines (lit "19:00")) 0
  = Ok [fixture HAPOEL_JLM MACCABI_HAIFA (wall_clock 2030 1 1 19 0) "hapoel"].
Proof. reflexivity. Qed.

Example time_slot_not_a_time :
  fetch_hapoel_matches (sample_lines (lit "TBD")) 0
  = Ok [fixture HAPOEL_JLM MACCABI_HAIFA (wall_clock 2030 1 1 20 30)
                "hapoel"].
Proof. reflexivity. Qed.

Example time_slot_trailing_letter :
  fetch_hapoel_matches (sample_lines (lit "19:00x")) 0 = Raise ValueError.
Proof. reflexivity. Qed.

(** C8: when no line equals the section marker, [fetch_hapoel_matches]
    returns the empty list, and the reconciled output is the reconciled
    list of Beitar's fixtures alone, all of them records of Parser A. *)
Theorem missing_section_marker lines now_b :
  UPCOMING ∉ lines →
  fetch_hapoel_matches lines now_b = Ok []
  ∧ ∀ items now_a beitar,
      fetch_beitar_matches items now_a = Ok beitar →
      reconciled items now_a lines now_b = Ok (deduplicate_matches beitar)
      ∧ ∀ m, m ∈ deduplicate_matches beitar → m ∈ beitar.
Proof.
  intros Hno.
  assert (fetch_hapoel_matches lines now_b = Ok []) as Hb.
  { unfold fetch_hapoel_matches. by rewrite index_of_None. }
  split; [done|]. intros items now_a beitar Ha.
  split; [|intros m; apply elem_of_deduplicate_matches].
  unfold reconciled. rewrite Ha, Hb. simpl. by rewrite app_nil_r.
Qed.

Lemma missing_section_marker_witness :
  fetch_hapoel_matches [FINISHED; lit "19:00"; lit "01/01/2030"] 0 = Ok [].
Proof.
  apply (missing_section_marker [FINISHED; lit "19:00"; lit "01/01/2030"] 0).
  rewrite !not_elem_of_cons. split_and!; try discriminate.
  apply not_elem_of_nil.
Defined.

End parser_contract.

(** ** More on the reconciler *)

Section reconciler_more.
Implicit Types (m e a b x : Match) (u s l : list Match).

Lemma dedup_step_submseteq u m : dedup_step u m ⊆+ u ++ [m].
Proof.
  destruct (dedup_step_cases u m)
    as [[_ ->]|(l1 & e & l2 & -> & _ & _ & [->| ->])].
  - done.
  - by apply submseteq_inserts_r.
  - rewrite <-app_assoc. apply submseteq_skips_l. simpl.
    apply submseteq_cons_r. left.
    by rewrite <-Permutation_cons_append.
Qed.

Lemma foldl_dedup_step_submseteq s u : foldl dedup_step u s ⊆+ u ++ s.
Proof.
  revert u. induction s as [|m s IH]; intros u; simpl.
  { by rewrite app_nil_r. }
  etrans; [apply IH|].
  rewrite (cons_middle m u s), app_assoc.
  apply submseteq_skips_r, dedup_step_submseteq.
Qed.

(** X1: the reconciler never makes up a record and never returns a record more
    often than the input holds it; so the output is no longer than the
    input. *)
Theorem deduplicate_matches_submseteq l :
  deduplicate_matches l ⊆+ l
  ∧ (length (deduplicate_matches l) ≤ length l)%nat.
Proof.
  assert (deduplicate_matches l ⊆+ l) as Hsub.
  { unfold deduplicate_matches. rewrite sorted_by_datetime_perm.
    etrans; [apply foldl_dedup_step_submseteq|].
    simpl. by rewrite sorted_by_datetime_perm. }
  split; [done|]. by apply submseteq_length.
Qed.

Lemma dedup_step_represents u m x :
  x ∈ u ++ [m] → ∃ y, y ∈ dedup_step u m ∧ teams y = teams x.
Proof.
  intros Hx.
  destruct (dedup_step_cases u m)
    as [[_ ->]|(l1 & e & l2 & -> & He & _ & Hstep)].
  { by exists x. }
  apply andb_true_iff in He as [Ht%bool_decide_eq_true _].
  rewrite !elem_of_app, elem_of_cons, list_elem_of_singleton in Hx.
  destruct Hstep as [->| ->]; setoid_rewrite elem_of_app;
    setoid_rewrite elem_of_cons.
  - destruct Hx as [[?|[->|?]]| ->]; [exists x|exists e|exists x|exists e];
      split; try tauto. by symmetry.
  - destruct Hx as [[?|[->|?]]| ->]; [exists x|exists m|exists x|exists m];
      split; tauto.
Qed.

Lemma foldl_dedup_step_represents s u x :
  x ∈ u ++ s → ∃ y, y ∈ foldl dedup_step u s ∧ teams y = teams x.
Proof.
  revert u x. induction s as [|m s IH]; intros u x; simpl.
  { rewrite app_nil_r. by exists x. }
  rewrite (cons_middle m u s), app_assoc, elem_of_app.
  intros [(y & Hy & Hyx)%dedup_step_represents|Hx].
  - destruct (IH (dedup_step u m) y) as (z & Hz & Hzy).
    { apply elem_of_app. by left. }
    exists z. split; [done|congruence].
  - apply IH, elem_of_app. by right.
Qed.

(** X2: No pairing is lost: for every input record the output holds a record
    that names the same two teams. *)
Theorem deduplicate_matches_keeps_pairings l m :
  m ∈ l → ∃ x, x ∈ deduplicate_matches l ∧ same_pairing x m.
Proof.
  intros Hm. unfold deduplicate_matches.
  destruct (foldl_dedup_step_represents (sorted_by_datetime l) [] m)
    as (x & Hx & Hxm).
  { by apply elem_of_sorted_by_datetime. }
  exists x. split; [by apply elem_of_sorted_by_datetime|].
  by apply teams_same_pairing.
Qed.

Lemma deduplicate_matches_keeps_pairings_witness :
  ∃ x, x ∈ deduplicate_matches [derby_beitar; derby_hapoel]
       ∧ same_pairing x derby_hapoel.
Proof.
  apply (deduplicate_matches_keeps_pairings
           [derby_beitar; derby_hapoel] derby_hapoel).
  right. left.
Defined.

Lemma pairwise_of_lookup {A} (R : relation A) (l : list A) :
  (∀ i j y z, (i < j)%nat → l !! i = Some y → l !! j = Some z → R y z) →
  pairwise R l.
Proof.
  induction l as [|h l IH]; intros HR; simpl; [done|]. split.
  - apply Forall_forall. intros y [j Hj]%list_elem_of_lookup.
    apply (HR 0%nat (S j)); [lia|done..].
  - apply IH. intros i j y z Hij Hy Hz.
    apply (HR (S i) (S j)); [lia|done..].
Qed.

Lemma deduplicate_matches_far_apart l :
  pairwise far_apart l → deduplicate_matches l = sorted_by_datetime l.
Proof.
  intros Hp. unfold deduplicate_matches.
  rewrite foldl_dedup_step_id; simpl.
  - apply sorted_by_datetime_id, sorted_by_datetime_sorted.
  - apply sorted_by_datetime_sorted.
  - eapply pairwise_perm; [apply _| |exact Hp].
    symmetry. apply sorted_by_datetime_perm.
Qed.

(** X3: an input in which any two records naming the same two teams lie at
    least four full days apart is only put in kickoff order: nothing is
    dropped. *)
Theorem deduplicate_matches_no_duplicates l :
  (∀ i j a b, i ≠ j → l !! i = Some a → l !! j = Some b →
              same_pairing a b →
              4 * US_PER_DAY ≤ Z.abs (datetime a - datetime b)) →
  deduplicate_matches l = sorted_by_datetime l
  ∧ deduplicate_matches l ≡ₚ l.
Proof.
  intros Hfar.
  assert (deduplicate_matches l = sorted_by_datetime l) as ->.
  { apply deduplicate_matches_far_apart, pairwise_of_lookup.
    intros i j a b Hij Ha Hb Ht%teams_same_pairing.
    apply (Hfar i j); [lia|done..]. }
  split; [done|apply sorted_by_datetime_perm].
Qed.

Lemma deduplicate_matches_no_duplicates_witness :
  deduplicate_matches [derby_return; haifa_game; derby_beitar]
  = sorted_by_datetime [derby_return; haifa_game; derby_beitar].
Proof.
  apply (deduplicate_matches_no_duplicates
           [derby_return; haifa_game; derby_beitar]).
  intros [|[|[|i]]] [|[|[|j]]] a b Hij Ha Hb [[Hh Haw]|[Hh Haw]];
    simplify_eq/=; try discriminate; try lia.
Defined.

Lemma near_is_duplicate m e :
  datetime e ≤ datetime m → teams m = teams e →
  datetime m - datetime e < 4 * US_PER_DAY → is_duplicate m e = true.
Proof.
  intros Hle Ht Hnear. unfold is_duplicate.
  rewrite bool_decide_eq_true_2 by done. simpl. apply Z.leb_le.
  pose proof (Z.div_pos (datetime m - datetime e) US_PER_DAY).
  pose proof (Z.div_lt_upper_bound (datetime m - datetime e) US_PER_DAY 4).
  unfold timedelta_days, US_PER_DAY in *. lia.
Qed.

Lemma dedup_step_singleton_near e m :
  datetime e ≤ datetime m → teams m = teams e →
  datetime m - datetime e < 4 * US_PER_DAY →
  length (dedup_step [e] m) = 1%nat.
Proof.
  intros Hle Ht Hnear. unfold dedup_step. simpl.
  rewrite near_is_duplicate by done. by repeat case_match.
Qed.

(** X4: the window of the duplicate test, on two reports of one pairing given
    in either order: they are merged into one record exactly when their
    kickoffs are less than four full days apart; from four days on both
    are kept. *)
Theorem merge_window a b :
  same_pairing a b →
  (Z.abs (datetime a - datetime b) < 4 * US_PER_DAY →
   length (deduplicate_matches [a; b]) = 1%nat)
  ∧ (4 * US_PER_DAY ≤ Z.abs (datetime a - datetime b) →
     deduplicate_matches [a; b] = sorted_by_datetime [a; b]).
Proof.
  intros Hsame%teams_same_pairing. split; intros Hd.
  - unfold deduplicate_matches. rewrite sorted_by_datetime_perm. simpl.
    destruct (Z.ltb_spec (datetime b) (datetime a)); simpl.
    + apply dedup_step_singleton_near; [lia|done|lia].
    + apply dedup_step_singleton_near; [lia|done|lia].
  - apply deduplicate_matches_far_apart. simpl.
    split_and!; try done. repeat constructor. by intros _.
Qed.

Lemma merge_window_witness :
  length (deduplicate_matches [derby_hapoel; derby_beitar]) = 1%nat.
Proof.
  destruct (merge_window derby_hapoel derby_beitar) as [Hnear _].
  - right. split; reflexivity.
  - apply Hnear. vm_compute. reflexivity.
Defined.

End reconciler_more.

(** ** More on the text helpers *)

Section text_more.
Implicit Types (c : char) (s : str).

Lemma decimal_in_Some zeros c d :
  decimal_in zeros c = Some d →
  ∃ z, z ∈ zeros ∧ (z ≤ c < z + 10)%N ∧ d = (c - z)%N.
Proof.
  induction zeros as [|z zeros IH]; simpl; [done|].
  destruct (N.leb_spec z c), (N.ltb_spec c (z + 10)); simpl.
  - intros [= <-]. exists z. split_and!; [left|lia..|done].
  - intros (z' & ? & ?)%IH. exists z'. split; [by right|done].
  - intros (z' & ? & ?)%IH. exists z'. split; [by right|done].
  - intros (z' & ? & ?)%IH. exists z'. split; [by right|done].
Qed.

Lemma is_decimal_not_space c : is_decimal c = true → is_space c = false.
Proof.
  intros Hd. unfold is_space. apply bool_decide_eq_false. intros Hs.
  repeat (apply elem_of_cons in Hs as [->|Hs]; [by vm_compute in Hd|]).
  by apply elem_of_nil in Hs.
Qed.

(** What [int] makes of a decimal digit of any script. *)
Lemma to_ascii_decimal c :
  is_decimal c = true → (48 ≤ Int.to_ascii c ≤ 57)%N.
Proof.
  intros Hd. unfold Int.to_ascii. rewrite (is_decimal_not_space c Hd).
  unfold is_decimal in Hd.
  destruct (decimal_value c) as [d|] eqn:Hv; [|done].
  apply decimal_in_Some in Hv as (z & Hz & Hc & ->).
  destruct (N.ltb_spec c 127); [|lia].
  assert (forallb (λ z, (z =? 48) || (127 <=? z))%N DECIMAL_ZEROS = true)
    as Hall by reflexivity.
  rewrite forallb_forall in Hall. apply list_elem_of_In, Hall in Hz.
  apply orb_true_iff in Hz as [Hz%N.eqb_eq|Hz%N.leb_le]; lia.
Qed.

Lemma int_two_decimal (a b : N) :
  is_decimal a = true → is_decimal b = true →
  ∃ v, Int.int [a; b] = Ok v ∧ 0 ≤ v ≤ 99.
Proof.
  intros Ha%to_ascii_decimal Hb%to_ascii_decimal.
  unfold Int.int. simpl map.
  generalize dependent (Int.to_ascii a). intros x Hx.
  generalize dependent (Int.to_ascii b). intros y Hy.
  exists (10 * (Z.of_N x - 48) + (Z.of_N y - 48)). split; [|lia].
  assert (x ∈ [48; 49; 50; 51; 52; 53; 54; 55; 56; 57]%N) as Hx'.
  { rewrite !elem_of_cons. lia. }
  assert (y ∈ [48; 49; 50; 51; 52; 53; 54; 55; 56; 57]%N) as Hy'.
  { rewrite !elem_of_cons. lia. }
  clear Hx Hy.
  repeat (apply elem_of_cons in Hx' as [->|Hx']);
    try (by apply elem_of_nil in Hx');
    repeat (apply elem_of_cons in Hy' as [->|Hy']);
    try (by apply elem_of_nil in Hy');
    vm_compute; reflexivity.
Qed.

Lemma take_digits_2 s ds rest :
  Re.take_digits 2 s = Some (ds, rest) →
  ∃ a b, ds = [a; b] ∧ s = a :: b :: rest
         ∧ is_decimal a = true ∧ is_decimal b = true.
Proof.
  cbn [Re.take_digits]. intros H.
  destruct s as [|a [|b s]]; try done;
    destruct (is_decimal a) eqn:Ha; try done.
  destruct (is_decimal b) eqn:Hb; [|done].
  simplify_eq. eauto 10.
Qed.

Lemma rmatch_info_re s groups :
  Re.rmatch INFO_RE s = Some groups →
  ∃ d1 d2 m1 m2 y1 y2 h1 h2 n1 n2,
    groups = [[d1; d2; 47; m1; m2; 47; y1; y2]; [h1; h2; 58; n1; n2]]%N
    ∧ Forall (λ c, is_decimal c = true)
             [d1; d2; m1; m2; y1; y2; h1; h2; n1; n2].
Proof.
  unfold Re.rmatch, INFO_RE. intros H. cbn [Re.run] in H.
  repeat (case_match; try done). simplify_eq.
  repeat match goal with
         | Ht : Re.take_digits 2 _ = Some _ |- _ =>
             apply take_digits_2 in Ht as (? & ? & ? & ? & ? & ?)
         | Hb : bool_decide _ = true |- _ => apply bool_decide_eq_true in Hb
         end.
  simplify_eq/=. do 10 eexists. split; [reflexivity|].
  by repeat constructor.
Qed.

Lemma search_info_re s groups :
  Re.search INFO_RE s = Some groups →
  ∃ d1 d2 m1 m2 y1 y2 h1 h2 n1 n2,
    groups = [[d1; d2; 47; m1; m2; 47; y1; y2]; [h1; h2; 58; n1; n2]]%N
    ∧ Forall (λ c, is_decimal c = true)
             [d1; d2; m1; m2; y1; y2; h1; h2; n1; n2].
Proof.
  induction s as [|c s IH]; cbn [Re.search].
  - destruct (Re.rmatch INFO_RE []) eqn:E; [|done].
    intros [= <-]. by eapply rmatch_info_re.
  - destruct (Re.rmatch INFO_RE (c :: s)) eqn:E; [|done].
    intros [= <-]. by eapply rmatch_info_re.
Qed.

Lemma is_decimal_not_separator c :
  is_decimal c = true → c ≠ 47%N ∧ c ≠ 58%N.
Proof. intros H. split; intros ->; by vm_compute in H. Qed.

Lemma split_date_text (d1 d2 m1 m2 y1 y2 : N) :
  Forall (λ c, is_decimal c = true) [d1; d2; m1; m2; y1; y2] →
  split 47%N [d1; d2; 47; m1; m2; 47; y1; y2]%N
  = [[d1; d2]; [m1; m2]; [y1; y2]].
Proof.
  intros H.
  repeat (apply Forall_cons in H as [?%is_decimal_not_separator H]).
  destruct_and!.
  cbn [split]. repeat (case_bool_decide; try done; cbn [split]).
Qed.

Lemma split_time_text (h1 h2 n1 n2 : N) :
  Forall (λ c, is_decimal c = true) [h1; h2; n1; n2] →
  split 58%N [h1; h2; 58; n1; n2]%N = [[h1; h2]; [n1; n2]].
Proof.
  intros H.
  repeat (apply Forall_cons in H as [?%is_decimal_not_separator H]).
  destruct_and!.
  cbn [split]. repeat (case_bool_decide; try done; cbn [split]).
Qed.

End text_more.

(** ** More on Parser A *)

Section beitar_more.
Implicit Types (m : Match) (ms acc : list Match) (now : Z)
  (item : GameListItem) (items xs ys : list GameListItem).

Lemma datetime_new_Ok year month day hour minute t :
  datetime_new year month day hour minute = Ok t →
  t = wall_clock year month day hour minute
  ∧ 1 ≤ year ≤ 9999 ∧ 1 ≤ month ≤ 12 ∧ 1 ≤ day ≤ days_in_month year month
  ∧ 0 ≤ hour ≤ 23 ∧ 0 ≤ minute ≤ 59.
Proof.
  unfold datetime_new. intros H.
  repeat match type of H with
         | context [if negb ?b then _ else _] => destruct b eqn:?; simpl in H
         end; simplify_eq.
  repeat match goal with
         | Hb : (_ && _) = true |- _ => apply andb_true_iff in Hb as [??]
         | Hb : (_ <=? _) = true |- _ => apply Z.leb_le in Hb
         end.
  split_and!; done.
Qed.


Lemma tbd_default_range h mi :
  0 ≤ h ≤ 99 → 0 ≤ mi ≤ 99 →
  ∃ h' mi', tbd_default (h, mi) = (h', mi')
            ∧ 10 ≤ h' ≤ 99 ∧ 0 ≤ mi' ≤ 99.
Proof.
  intros Hh Hmi. unfold tbd_default, DEFAULT_HOUR, DEFAULT_MINUTE.
  destruct (Z.ltb_spec h 10); eexists _, _; (split; [done|lia]).
Qed.

(** A block that passes the inclusion test and holds a date and time token
    comes down to building the timestamp from five two-digit numbers. *)
Lemma beitar_item_token now item t dp tp :
  teams_names item = Some t →
  beitar_included (default [] (home t)) (default [] (away t)) = true →
  Re.search INFO_RE (default [] (game_info item)) = Some [dp; tp] →
  ∃ y mo d h mi,
    0 ≤ y ≤ 99 ∧ 0 ≤ mo ≤ 99 ∧ 0 ≤ d ≤ 99 ∧ 10 ≤ h ≤ 99 ∧ 0 ≤ mi ≤ 99
    ∧ beitar_item now item =
        (match_dt ← datetime_new (2000 + y) mo d h mi;
         if match_dt <? now then Ok None
         else Ok (Some {| home_team := default [] (home t);
                          away_team := default [] (away t);
                          datetime := match_dt;
                          venue := lit "Teddy Stadium";
                          source := lit "beitar" |})).
Proof.
  intros Ht Hin Hre. unfold beitar_item. rewrite Ht, Hin, Hre. cbn [negb].
  apply search_info_re in Hre
    as (d1 & d2 & m1 & m2 & y1 & y2 & h1 & h2 & n1 & n2 & [= -> ->] & Hdec).
  assert (Forall (λ c, is_decimal c = true) [d1; d2; m1; m2; y1; y2])
    as Hdate.
  { by repeat (apply Forall_cons in Hdec as [? Hdec]); repeat constructor. }
  assert (Forall (λ c, is_decimal c = true) [h1; h2; n1; n2]) as Htime.
  { by repeat (apply Forall_cons in Hdec as [? Hdec]); repeat constructor. }
  repeat (apply Forall_cons in Hdec as [? Hdec]).
  destruct (int_two_decimal d1 d2) as (d & Hd & ?); [done..|].
  destruct (int_two_decimal m1 m2) as (mo & Hmo & ?); [done..|].
  destruct (int_two_decimal y1 y2) as (y & Hy & ?); [done..|].
  destruct (int_two_decimal h1 h2) as (h & Hh & ?); [done..|].
  destruct (int_two_decimal n1 n2) as (mi & Hmi & ?); [done..|].
  destruct (tbd_default_range h mi) as (h' & mi' & Htbd & ? & ?); [done..|].
  exists y, mo, d, h', mi'. split_and!; try lia.
  rewrite (split_date_text _ _ _ _ _ _ Hdate).
  cbn [unpack3 mbind result_bind].
  unfold beitar_time, hour_minute.
  rewrite (split_time_text _ _ _ _ Htime).
  cbn [unpack2 mbind result_bind mret result_ret].
  rewrite Hh. cbn [mbind result_bind mret result_ret].
  rewrite Hmi. cbn [mbind result_bind mret result_ret].
  rewrite Htbd, Hy. cbn [mbind result_bind].
  rewrite Hmo. cbn [mbind result_bind].
  rewrite Hd. done.
Qed.

Lemma beitar_included_true home_name away_name :
  beitar_included home_name away_name = true →
  contains BEITAR_KW home_name = true
  ∨ (contains HAPOEL_JLM_KW home_name = true
     ∧ contains BEITAR_KW away_name = true).
Proof.
  unfold beitar_included.
  destruct (contains BEITAR_KW home_name); [by left|].
  destruct (contains HAPOEL_JLM_KW home_name),
           (contains BEITAR_KW away_name); try done. by right.
Qed.

(** The three ways a block yields something other than a skip. *)
Lemma beitar_item_not_skipped now item :
  beitar_item now item ≠ Ok None →
  ∃ t dp tp,
    teams_names item = Some t
    ∧ beitar_included (default [] (home t)) (default [] (away t)) = true
    ∧ Re.search INFO_RE (default [] (game_info item)) = Some [dp; tp].
Proof.
  unfold beitar_item. intros H.
  destruct (teams_names item) as [t|]; [|done].
  destruct (beitar_included _ _) eqn:Hin; [|done].
  destruct (Re.search _ _) as [groups|] eqn:Hre; [|done].
  destruct (search_info_re _ _ Hre) as (?&?&?&?&?&?&?&?&?&?& -> & _).
  eauto 10.
Qed.

Lemma beitar_loop_acc now items acc :
  beitar_loop now items acc
  = (ms ← beitar_loop now items []; mret (acc ++ ms)).
Proof.
  revert acc. induction items as [|item items IH]; intros acc; simpl.
  { by rewrite app_nil_r. }
  destruct (beitar_item now item) as [[m|]|e]; [| |done].
  - rewrite IH, (IH [m]).
    destruct (beitar_loop now items []); simpl; [|done].
    by rewrite <-app_assoc.
  - apply IH.
Qed.

Lemma beitar_loop_app now xs ys acc :
  beitar_loop now (xs ++ ys) acc
  = (a ← beitar_loop now xs acc;
     b ← beitar_loop now ys [];
     mret (a ++ b)).
Proof.
  revert acc. induction xs as [|item xs IH]; intros acc; simpl.
  { apply beitar_loop_acc. }
  destruct (beitar_item now item) as [[m|]|e]; [| |done]; apply IH.
Qed.

(** X5: Parser A works block by block, in page order: the fixtures of a page
    are those of its first part followed by those of the rest, and an
    exception in either part is the outcome of the whole, the earlier one
    first. *)
Theorem fetch_beitar_matches_app xs ys now :
  fetch_beitar_matches (xs ++ ys) now
  = (a ← fetch_beitar_matches xs now;
     b ← fetch_beitar_matches ys now;
     mret (a ++ b)).
Proof. apply beitar_loop_app. Qed.

(** X6: a block without the [teams_names] element, a block whose names fail
    the inclusion test and a block without a date and time token are passed
    over: the outcome is that of the page without the block. *)
Theorem fetch_beitar_matches_skips xs item ys now :
  teams_names item = None
  ∨ (∃ t, teams_names item = Some t
          ∧ beitar_included (default [] (home t)) (default [] (away t))
            = false)
  ∨ Re.search INFO_RE (default [] (game_info item)) = None →
  fetch_beitar_matches (xs ++ item :: ys) now
  = fetch_beitar_matches (xs ++ ys) now.
Proof.
  intros Hskip.
  assert (beitar_item now item = Ok None) as Hitem.
  { unfold beitar_item. destruct Hskip as [->|[(t & -> & ->)| ->]]; [done..|].
    by repeat case_match. }
  unfold fetch_beitar_matches. rewrite !beitar_loop_app.
  assert (beitar_loop now (item :: ys) [] = beitar_loop now ys []) as ->;
    [|done].
  simpl. by rewrite Hitem.
Qed.

Lemma fetch_beitar_matches_skips_witness :
  fetch_beitar_matches
    [sample_item (lit "to be announced");
     sample_item (lit "01/01/30 -> 20:30")] 0
  = fetch_beitar_matches [sample_item (lit "01/01/30 -> 20:30")] 0.
Proof.
  apply (fetch_beitar_matches_skips
           [] (sample_item (lit "to be announced"))
           [sample_item (lit "01/01/30 -> 20:30")] 0).
  right. right. reflexivity.
Defined.

(** X7: every fixture of Parser A is tagged with source [beitar] and the fixed
    venue, has the Beitar keyword in its home name or is a derby hosted by
    Hapoel Jerusalem, and kicks off on a real calendar day of the years
    2000 to 2099 at a full minute from 10:00 to 23:59. *)
Theorem fetch_beitar_matches_shape items now ms m :
  fetch_beitar_matches items now = Ok ms → m ∈ ms →
  source m = lit "beitar" ∧ venue m = lit "Teddy Stadium"
  ∧ (contains BEITAR_KW (home_team m) = true
     ∨ (contains HAPOEL_JLM_KW (home_team m) = true
        ∧ contains BEITAR_KW (away_team m) = true))
  ∧ ∃ year month day hour minute,
      datetime m = wall_clock year month day hour minute
      ∧ 2000 ≤ year ≤ 2099 ∧ 1 ≤ month ≤ 12
      ∧ 1 ≤ day ≤ days_in_month year month
      ∧ 10 ≤ hour ≤ 23 ∧ 0 ≤ minute ≤ 59.
Proof.
  intros Hms Hm. revert m Hm. apply Forall_forall.
  eapply beitar_loop_Ok; [|constructor|exact Hms].
  intros item m Hitem.
  destruct (beitar_item_not_skipped now item)
    as (t & dp & tp & Ht & Hin & Hre); [by rewrite Hitem|].
  destruct (beitar_item_token now item t dp tp Ht Hin Hre)
    as (y & mo & d & h & mi & ? & ? & ? & ? & ? & Heq).
  rewrite Heq in Hitem.
  apply bind_Ok in Hitem as (match_dt & Hdt & Hitem).
  destruct (match_dt <? now); simplify_eq/=.
  apply datetime_new_Ok in Hdt as (-> & ? & ? & ? & ? & ?).
  split_and!; [done..|by apply beitar_included_true|].
  exists (2000 + y), mo, d, h, mi. split_and!; try done; lia.
Qed.

Lemma fetch_beitar_matches_shape_witness :
  source (fixture BEITAR_JLM MACCABI_HAIFA (wall_clock 2030 1 1 20 30)
                  "beitar") = lit "beitar".
Proof.
  eapply (fetch_beitar_matches_shape
            [sample_item (lit "01/01/30 -> 05:00")] 0).
  - reflexivity.
  - left.
Defined.




End beitar_more.

(** ** More on Parser B *)

Section hapoel_more.
Implicit Types (m : Match) (ms acc : list Match) (now : Z)
  (line : str) (lines pre blk post rest preceding : list str)
  (s i j k n : nat).

Lemma walk_back_le lines s n preceding :
  (n ≤ s)%nat → walk_back lines s n preceding = preceding.
Proof.
  intros Hn. destruct n as [|j]; cbn [walk_back]; [done|].
  by rewrite bool_decide_eq_false_2 by lia.
Qed.

Lemma walk_back_app_l pre post s n preceding :
  (n ≤ length pre)%nat →
  walk_back (pre ++ post) s n preceding = walk_back pre s n preceding.
Proof.
  revert preceding. induction n as [|j IH]; intros preceding Hn;
    cbn [walk_back]; [done|].
  rewrite lookup_app_l by lia.
  repeat case_match; try done. apply IH. lia.
Qed.

Lemma walk_back_shift pre lines s n preceding :
  walk_back (pre ++ lines) (length pre + s) (length pre + n) preceding
  = walk_back lines s n preceding.
Proof.
  revert preceding. induction n as [|j IH]; intros preceding.
  { rewrite walk_back_le by lia. done. }
  rewrite Nat.add_succ_r. cbn [walk_back].
  rewrite lookup_app_r by lia.
  replace (length pre + j - length pre)%nat with j by lia.
  destruct (decide (s ≤ j)%nat).
  - rewrite !(bool_decide_eq_true_2 (_ ≤ _)%nat) by lia.
    repeat case_match; try done; apply IH.
  - by rewrite !(bool_decide_eq_false_2 (_ ≤ _)%nat) by lia.
Qed.

Lemma elem_of_walk_back lines s n preceding x :
  x ∈ walk_back lines s n preceding → x ∈ preceding ∨ x ∈ lines.
Proof.
  revert preceding. induction n as [|j IH]; intros preceding;
    cbn [walk_back]; [tauto|].
  repeat case_match; try tauto.
  intros [[->|?]%elem_of_cons|?]%IH; try tauto.
  right. by eapply list_elem_of_lookup_2.
Qed.

Lemma walk_back_collect pre blk post s preceding :
  (s ≤ length pre)%nat →
  Forall (λ line, row_boundary line = false) blk →
  (length blk + length preceding = 4
   ∨ (length blk + length preceding < 4)
     ∧ (length pre = s
        ∨ ∃ pre' line, pre = pre' ++ [line] ∧ row_boundary line = true))%nat →
  walk_back (pre ++ blk ++ post) s (length pre + length blk) preceding
  = blk ++ preceding.
Proof.
  intros Hs. revert preceding post.
  induction blk as [|x blk IH] using rev_ind;
    intros preceding post Hblk Hstop.
  - simpl in *. rewrite Nat.add_0_r.
    destruct Hstop as [Hfull|[_ [Heq|(pre' & line & -> & Hline)]]].
    + destruct (length pre); cbn [walk_back]; [done|].
      rewrite (bool_decide_eq_false_2 (_ < _)%nat) by lia.
      by rewrite andb_false_r.
    + apply walk_back_le. lia.
    + rewrite length_app. simpl. rewrite Nat.add_1_r. cbn [walk_back].
      rewrite <-app_assoc. cbn [app]. rewrite list_lookup_middle by done.
      unfold row_boundary in Hline.
      destruct (bool_decide (is_Some _)); simpl in Hline.
      * by destruct (_ && _).
      * unfold among in *. rewrite Hline. by destruct (_ && _).
  - apply Forall_app in Hblk as [Hblk Hx].
    apply Forall_cons in Hx as [Hx _].
    rewrite length_app in *. simpl in *.
    rewrite Nat.add_assoc, Nat.add_1_r. cbn [walk_back].
    rewrite bool_decide_eq_true_2, bool_decide_eq_true_2 by lia.
    replace (pre ++ (blk ++ [x]) ++ post)
      with ((pre ++ blk) ++ x :: post) by (by rewrite <-!app_assoc).
    rewrite list_lookup_middle by (rewrite length_app; lia).
    unfold row_boundary in Hx. apply orb_false_iff in Hx as [Hd Hh].
    rewrite Hd, Hh. cbn [andb].
    rewrite <-!app_assoc. cbn [app].
    apply (IH _ _ Hblk). simpl.
    destruct Hstop as [?|[? ?]]; [left; lia|right; split; [lia|done]].
Qed.

(** X10: the fields of a row: between a boundary line and a date line the walk
    collects the field lines in page order, four at most, and it does not
    reach across the boundary into the row before. *)
Theorem walk_back_row pre blk post s :
  (s ≤ length pre)%nat →
  Forall (λ line, row_boundary line = false) blk →
  (length blk = 4%nat
   ∨ (length blk < 4)%nat
     ∧ (length pre = s
        ∨ ∃ pre' line, pre = pre' ++ [line] ∧ row_boundary line = true)) →
  walk_back (pre ++ blk ++ post) s (length pre + length blk) [] = blk.
Proof.
  intros Hs Hblk Hstop.
  rewrite walk_back_collect; [by rewrite app_nil_r|done..|]. simpl.
  destruct Hstop as [?|[? ?]]; [left; lia|right; split; [lia|done]].
Qed.

Lemma walk_back_row_witness :
  walk_back (sample_lines (lit "19:00")) 0 10 []
  = [lit "19:00"; TEDDY_KW; MACCABI_HAIFA; HAPOEL_JLM].
Proof.
  apply (walk_back_row
           [UPCOMING; COL_TIME; COL_VENUE; COL_GUEST; COL_HOME; COL_DATE]
           [lit "19:00"; TEDDY_KW; MACCABI_HAIFA; HAPOEL_JLM]
           [lit "01/01/2030"] 0).
  - simpl. lia.
  - repeat constructor.
  - left. reflexivity.
Defined.

(** X11: a date line with fewer than two field lines before it gives no fixture
    and raises nothing, whatever the date line says: the missing names are
    empty and fail the inclusion test before the date is looked at. *)
Theorem short_row_skipped pre blk post s now date_str :
  (s ≤ length pre)%nat →
  Forall (λ line, row_boundary line = false) blk →
  (length blk < 2)%nat →
  (length pre = s
   ∨ ∃ pre' line, pre = pre' ++ [line] ∧ row_boundary line = true) →
  hapoel_row (pre ++ blk ++ post) s now (length pre + length blk) date_str
  = Ok None.
Proof.
  intros Hs Hblk Hlen Hstop. unfold hapoel_row.
  rewrite walk_back_collect, app_nil_r;
    [|done|done|right; split; [simpl; lia|done]].
  unfold hapoel_included.
  destruct blk as [|x [|??]]; simpl in Hlen; try lia; cbn [from_end rev];
    simpl default;
    change (contains TEDDY_KW []) with false;
    change (contains HAPOEL_JLM_KW []) with false;
    change (contains BEITAR_KW []) with false;
    by rewrite ?andb_false_r.
Qed.

Lemma short_row_skipped_witness :
  hapoel_row [UPCOMING; HAPOEL_JLM; lit "31/02/2030"] 0 0 2
             (lit "31/02/2030") = Ok None.
Proof.
  apply (short_row_skipped [UPCOMING] [HAPOEL_JLM] [lit "31/02/2030"] 0).
  - simpl. lia.
  - repeat constructor.
  - simpl. lia.
  - right. exists [], UPCOMING. split; reflexivity.
Defined.

Lemma tbd_default_hour hm h mi : tbd_default hm = (h, mi) → 10 ≤ h.
Proof.
  destruct hm as [h0 mi0]. unfold tbd_default, DEFAULT_HOUR.
  destruct (Z.ltb_spec h0 10); intros [= <- <-]; lia.
Qed.

Lemma hapoel_time_hour time_str h mi :
  hapoel_time time_str = Ok (h, mi) → 10 ≤ h.
Proof.
  unfold hapoel_time. intros (hm & _ & [= Hhm])%bind_Ok.
  by eapply tbd_default_hour.
Qed.

Lemma from_end_elem_of xs k :
  from_end xs k = [] ∨ from_end xs k ∈ xs.
Proof.
  unfold from_end. destruct (rev xs !! (k - 1)%nat) as [x|] eqn:Hx; simpl.
  - right. apply list_elem_of_lookup_2 in Hx.
    by apply list_elem_of_In, in_rev, list_elem_of_In in Hx.
  - by left.
Qed.

Lemma from_end_2_elem_of xs :
  from_end xs 3 ≠ [] → from_end xs 2 ∈ xs.
Proof.
  unfold from_end. intros H3.
  destruct (rev xs !! (3 - 1)%nat) as [v|] eqn:Hv; [|done].
  apply lookup_lt_Some in Hv.
  destruct (rev xs !! (2 - 1)%nat) as [g|] eqn:Hg; simpl.
  - apply list_elem_of_lookup_2 in Hg.
    by apply list_elem_of_In, in_rev, list_elem_of_In in Hg.
  - apply lookup_ge_None in Hg. exfalso.
    apply (Nat.lt_irrefl (3 - 1)).
    eapply Nat.lt_le_trans; [exact Hv|]. etrans; [exact Hg|]. lia.
Qed.

Lemma contains_nonempty kw x :
  kw ≠ [] → contains kw x = true → x ≠ [].
Proof. intros Hkw Hc ->. by destruct kw. Qed.

Lemma hapoel_row_Some_shape lines s now i date_str m :
  hapoel_row lines s now i date_str = Ok (Some m) →
  source m = lit "hapoel" ∧ venue m = lit "Teddy Stadium"
  ∧ (contains HAPOEL_JLM_KW (home_team m) = true
     ∨ (contains BEITAR_KW (home_team m) = true
        ∧ contains HAPOEL_JLM_KW (away_team m) = true))
  ∧ home_team m ∈ lines ∧ away_team m ∈ lines
  ∧ ∃ year month day hour minute,
      datetime m = wall_clock year month day hour minute
      ∧ 1 ≤ year ≤ 9999 ∧ 1 ≤ month ≤ 12
      ∧ 1 ≤ day ≤ days_in_month year month
      ∧ 10 ≤ hour ≤ 23 ∧ 0 ≤ minute ≤ 59.
Proof.
  unfold hapoel_row. intros H.
  set (preceding := walk_back lines s i []) in *.
  destruct (hapoel_included _ _ _) eqn:Hin; [|done]. cbn [negb] in H.
  apply bind_Ok in H as ([[day month] year] & _ & H).
  apply bind_Ok in H as ([hour minute] & Htime%hapoel_time_hour & H).
  apply bind_Ok in H as (y & _ & H).
  apply bind_Ok in H as (mo & _ & H).
  apply bind_Ok in H as (d & _ & H).
  apply bind_Ok in H as (match_dt & Hdt & H).
  destruct (match_dt <? now); simplify_eq/=.
  apply datetime_new_Ok in Hdt as (-> & ? & ? & ? & ? & ?).
  assert (∀ x, x ∈ preceding → x ∈ lines) as Hsub.
  { intros x [[]%elem_of_nil|?]%elem_of_walk_back. done. }
  unfold hapoel_included in Hin.
  destruct (contains HAPOEL_JLM_KW (from_end preceding 1)) eqn:Hh,
           (contains BEITAR_KW (from_end preceding 1)) eqn:Hb,
           (contains HAPOEL_JLM_KW (from_end preceding 2)) eqn:Hgh,
           (contains BEITAR_KW (from_end preceding 2)) eqn:Hgb,
           (contains TEDDY_KW (from_end preceding 3)) eqn:Hv;
    try done;
    (split_and!; [done|done|tauto| | |
                  exists y, mo, d, hour, minute; split_and!; done || lia]);
    try (destruct (from_end_elem_of preceding 1) as [Hnil|?]; [|by auto];
         by rewrite Hnil in *);
    try (destruct (from_end_elem_of preceding 2) as [Hnil|?]; [|by auto];
         by rewrite Hnil in *);
    apply Hsub, from_end_2_elem_of;
    by apply (contains_nonempty TEDDY_KW).
Qed.

(** X12: every fixture of Parser B is tagged with source [hapoel] and the fixed
    venue, involves Hapoel Jerusalem (as home team, or as guest of a team
    with the Beitar keyword), carries two team names that are lines of the
    page, and kicks off on a real calendar day at a full minute from 10:00
    to 23:59. *)
Theorem fetch_hapoel_matches_shape lines now ms m :
  fetch_hapoel_matches lines now = Ok ms → m ∈ ms →
  source m = lit "hapoel" ∧ venue m = lit "Teddy Stadium"
  ∧ (contains HAPOEL_JLM_KW (home_team m) = true
     ∨ (contains BEITAR_KW (home_team m) = true
        ∧ contains HAPOEL_JLM_KW (away_team m) = true))
  ∧ home_team m ∈ lines ∧ away_team m ∈ lines
  ∧ ∃ year month day hour minute,
      datetime m = wall_clock year month day hour minute
      ∧ 1 ≤ year ≤ 9999 ∧ 1 ≤ month ≤ 12
      ∧ 1 ≤ day ≤ days_in_month year month
      ∧ 10 ≤ hour ≤ 23 ∧ 0 ≤ minute ≤ 59.
Proof.
  unfold fetch_hapoel_matches. intros Hms Hm.
  destruct (index_of UPCOMING lines) as [s|]; [|by simplify_eq; inv Hm].
  revert m Hm. apply Forall_forall.
  eapply hapoel_loop_Ok; [|constructor|exact Hms].
  intros i date_str m. apply hapoel_row_Some_shape.
Qed.

Lemma fetch_hapoel_matches_shape_witness :
  home_team (fixture HAPOEL_JLM MACCABI_HAIFA (wall_clock 2030 1 1 20 30)
                     "hapoel") ∈ sample_lines (lit "05:00").
Proof.
  destruct (fetch_hapoel_matches_shape
              (sample_lines (lit "05:00")) 0
              [fixture HAPOEL_JLM MACCABI_HAIFA (wall_clock 2030 1 1 20 30)
                       "hapoel"]
              (fixture HAPOEL_JLM MACCABI_HAIFA (wall_clock 2030 1 1 20 30)
                       "hapoel"))
    as (_ & _ & _ & Hhome & _); [reflexivity|left|exact Hhome].
Defined.

Lemma index_of_lt x lines s :
  index_of x lines = Some s → (s < length lines)%nat.
Proof.
  revert s. induction lines as [|line lines IH]; intros s; simpl; [done|].
  case_bool_decide; [intros [= <-]; lia|].
  destruct (index_of x lines) as [s'|]; simpl; [|done].
  intros [= <-]. specialize (IH s' eq_refl). lia.
Qed.

Lemma index_of_elem_of x lines : x ∈ lines → is_Some (index_of x lines).
Proof.
  induction lines as [|line lines IH]; simpl; [by intros ?%elem_of_nil|].
  case_bool_decide; [by eexists|].
  intros [->|Hx]%elem_of_cons; [done|].
  destruct (IH Hx) as [s ->]. by eexists.
Qed.

Lemma index_of_app_l x pre post s :
  index_of x pre = Some s → index_of x (pre ++ post) = Some s.
Proof.
  revert s. induction pre as [|line pre IH]; intros s; simpl; [done|].
  case_bool_decide; [done|].
  destruct (index_of x pre) as [s'|]; simpl; [|done].
  intros [= <-]. by rewrite (IH s').
Qed.

Lemma index_of_app_r x pre lines :
  x ∉ pre →
  index_of x (pre ++ lines) = (λ s, length pre + s)%nat <$> index_of x lines.
Proof.
  induction pre as [|line pre IH]; simpl.
  { intros _. by destruct (index_of x lines). }
  rewrite not_elem_of_cons. intros [Hne Hx].
  rewrite bool_decide_eq_false_2 by done. rewrite IH by done.
  by destruct (index_of x lines).
Qed.

Lemma skip_header_row_bound i rest :
  (i ≤ skip_header_row i rest ≤ i + length rest)%nat.
Proof.
  revert i. induction rest as [|line rest IH]; intros i; simpl; [lia|].
  case_match; [|lia]. specialize (IH (S i)). lia.
Qed.

Lemma skip_header_row_shift k i rest :
  skip_header_row (k + i) rest = (k + skip_header_row i rest)%nat.
Proof.
  revert i. induction rest as [|line rest IH]; intros i; simpl; [done|].
  case_match; [|done]. by rewrite <-IH, Nat.add_succ_r.
Qed.

Lemma skip_header_row_stop i rest stop post :
  among stop [COL_TIME; COL_VENUE; COL_GUEST; COL_HOME; COL_DATE] = false →
  skip_header_row i (rest ++ stop :: post) = skip_header_row i rest.
Proof.
  intros Hstop. revert i.
  induction rest as [|line rest IH]; intros i; simpl.
  { by rewrite Hstop. }
  case_match; [apply IH|done].
Qed.

Lemma hapoel_row_app_l pre post s now i date_str :
  (i ≤ length pre)%nat →
  hapoel_row (pre ++ post) s now i date_str = hapoel_row pre s now i date_str.
Proof. intros Hi. unfold hapoel_row. by rewrite walk_back_app_l. Qed.

Lemma hapoel_row_shift pre lines s now i date_str :
  hapoel_row (pre ++ lines) (length pre + s) now (length pre + i) date_str
  = hapoel_row lines s now i date_str.
Proof. unfold hapoel_row. by rewrite walk_back_shift. Qed.

Lemma hapoel_loop_app_l pre post s now i rest acc :
  (i + length rest ≤ length pre)%nat →
  hapoel_loop (pre ++ post) s now i rest acc
  = hapoel_loop pre s now i rest acc.
Proof.
  revert i acc. induction rest as [|line rest IH]; intros i acc Hi;
    cbn [hapoel_loop]; [done|].
  simpl in Hi.
  destruct (among line _); [done|]. destruct (among line _); [done|].
  destruct (Re.rmatch DATE_RE line) as [[|date_str [|??]]|];
    try (apply IH; lia).
  rewrite hapoel_row_app_l by lia.
  destruct (hapoel_row _ _ _ _ _) as [[m|]|e]; [| |done]; apply IH; lia.
Qed.

Lemma hapoel_loop_stop lines s now i rest stop post acc :
  among stop [FINISHED; COL_TIME; COL_RESULT] = true →
  hapoel_loop lines s now i (rest ++ stop :: post) acc
  = hapoel_loop lines s now i rest acc.
Proof.
  intros Hstop. revert i acc.
  induction rest as [|line rest IH]; intros i acc; cbn [hapoel_loop app].
  { by rewrite Hstop. }
  destruct (among line _); [done|]. destruct (among line _); [done|].
  destruct (Re.rmatch DATE_RE line) as [[|date_str [|??]]|]; try apply IH.
  destruct (hapoel_row _ _ _ _ _) as [[m|]|e]; [| |done]; apply IH.
Qed.

Lemma hapoel_loop_shift pre lines s now i rest acc :
  hapoel_loop (pre ++ lines) (length pre + s) now (length pre + i) rest acc
  = hapoel_loop lines s now i rest acc.
Proof.
  revert i acc. induction rest as [|line rest IH]; intros i acc;
    cbn [hapoel_loop]; [done|].
  rewrite <-Nat.add_succ_r.
  destruct (among line _); [done|]. destruct (among line _); [done|].
  destruct (Re.rmatch DATE_RE line) as [[|date_str [|??]]|]; try apply IH.
  rewrite hapoel_row_shift.
  destruct (hapoel_row _ _ _ _ _) as [[m|]|e]; [| |done]; apply IH.
Qed.

(** X13: what follows the header of the finished games, or a result column
    label, is not read: the outcome is that of the page cut off there. *)
Theorem fetch_hapoel_matches_stops pre stop post now :
  UPCOMING ∈ pre → stop = FINISHED ∨ stop = COL_RESULT →
  fetch_hapoel_matches (pre ++ stop :: post) now
  = fetch_hapoel_matches pre now.
Proof.
  intros [s Hs]%index_of_elem_of Hstop. unfold fetch_hapoel_matches.
  rewrite (index_of_app_l _ _ _ _ Hs), Hs.
  pose proof (index_of_lt _ _ _ Hs) as Hlt.
  rewrite drop_app_le by lia.
  rewrite skip_header_row_stop by (by destruct Hstop as [->| ->]).
  pose proof (skip_header_row_bound (S s) (drop (S s) pre)) as Hi.
  rewrite length_drop in Hi.
  rewrite drop_app_le by lia.
  rewrite hapoel_loop_stop by (by destruct Hstop as [->| ->]).
  apply hapoel_loop_app_l. rewrite length_drop. lia.
Qed.

Lemma fetch_hapoel_matches_stops_witness :
  fetch_hapoel_matches
    (sample_lines (lit "19:00")
     ++ FINISHED :: [lit "19:00"; TEDDY_KW; MACCABI_HAIFA; HAPOEL_JLM;
                     lit "01/02/2030"]) 0
  = fetch_hapoel_matches (sample_lines (lit "19:00")) 0.
Proof.
  apply (fetch_hapoel_matches_stops (sample_lines (lit "19:00")) FINISHED).
  - left.
  - by left.
Defined.

(** X14: what precedes the section marker has no influence: the outcome is that
    of the page from the marker on. *)
Theorem fetch_hapoel_matches_from_marker pre lines now :
  UPCOMING ∉ pre →
  fetch_hapoel_matches (pre ++ lines) now = fetch_hapoel_matches lines now.
Proof.
  intros Hpre. unfold fetch_hapoel_matches.
  rewrite index_of_app_r by done.
  destruct (index_of UPCOMING lines) as [s|]; simpl; [|done].
  rewrite <-Nat.add_succ_r, drop_app_add'  by done.
  rewrite skip_header_row_shift, drop_app_add' by done.
  apply hapoel_loop_shift.
Qed.

Lemma fetch_hapoel_matches_from_marker_witness :
  fetch_hapoel_matches
    ([lit "19:00"; TEDDY_KW; MACCABI_HAIFA; HAPOEL_JLM; lit "01/02/2030"]
     ++ sample_lines (lit "19:00")) 0
  = fetch_hapoel_matches (sample_lines (lit "19:00")) 0.
Proof.
  apply (fetch_hapoel_matches_from_marker
           [lit "19:00"; TEDDY_KW; MACCABI_HAIFA; HAPOEL_JLM;
            lit "01/02/2030"]).
  rewrite !not_elem_of_cons. split_and!; try discriminate.
  apply not_elem_of_nil.
Defined.

End hapoel_more.

(** ** The clock reading only filters *)

Section clock_facts.
Implicit Types (m : Match) (ms acc : list Match) (now : Z).

Lemma beitar_item_clock now1 now2 item :
  now1 ≤ now2 →
  beitar_item now2 item = later_clock now2 (beitar_item now1 item).
Proof.
  intros Hle. unfold beitar_item.
  destruct (teams_names item) as [t|]; [|done].
  destruct (negb _); [done|].
  destruct (Re.search _ _) as [[|dp [|tp [|??]]]|]; try done.
  destruct (unpack3 _) as [[[day month] year]|]; [|done]. simpl.
  destruct (beitar_time tp) as [[hour minute]|]; [|done]. simpl.
  destruct (Int.int year); [|done]. simpl.
  destruct (Int.int month); [|done]. simpl.
  destruct (Int.int day); [|done]. simpl.
  destruct (datetime_new _ _ _ _ _) as [match_dt|]; [|done]. simpl.
  destruct (Z.ltb_spec match_dt now1), (Z.ltb_spec match_dt now2);
    simpl; try done; try lia.
  - destruct (Z.ltb_spec match_dt now2); [done|lia].
  - destruct (Z.ltb_spec match_dt now2); [lia|done].
Qed.

Lemma hapoel_row_clock lines s now1 now2 i date_str :
  now1 ≤ now2 →
  hapoel_row lines s now2 i date_str
  = later_clock now2 (hapoel_row lines s now1 i date_str).
Proof.
  intros Hle. unfold hapoel_row.
  destruct (negb _); [done|].
  destruct (unpack3 _) as [[[day month] year]|]; [|done]. simpl.
  destruct (hapoel_time _) as [[hour minute]|]; [|done]. simpl.
  destruct (Int.int year); [|done]. simpl.
  destruct (Int.int month); [|done]. simpl.
  destruct (Int.int day); [|done]. simpl.
  destruct (datetime_new _ _ _ _ _) as [match_dt|]; [|done]. simpl.
  destruct (Z.ltb_spec match_dt now1), (Z.ltb_spec match_dt now2);
    simpl; try done; try lia.
  - destruct (Z.ltb_spec match_dt now2); [done|lia].
  - destruct (Z.ltb_spec match_dt now2); [lia|done].
Qed.

Lemma filter_snoc_clock now acc m :
  filter (λ m, now ≤ datetime m) (acc ++ [m])
  = filter (λ m, now ≤ datetime m) acc
    ++ (if datetime m <? now then [] else [m]).
Proof.
  rewrite filter_app. f_equal.
  destruct (Z.ltb_spec (datetime m) now).
  - by rewrite filter_cons_False by lia.
  - by rewrite filter_cons_True by lia.
Qed.

Lemma beitar_loop_clock now1 now2 items acc :
  now1 ≤ now2 →
  beitar_loop now2 items (filter (λ m, now2 ≤ datetime m) acc)
  = at_later_clock now2 (beitar_loop now1 items acc).
Proof.
  intros Hle. revert acc.
  induction items as [|item items IH]; intros acc; simpl; [done|].
  rewrite (beitar_item_clock now1 now2) by done.
  destruct (beitar_item now1 item) as [[m|]|e]; simpl; [|apply IH|done].
  rewrite <-IH, filter_snoc_clock.
  destruct (datetime m <? now2); by rewrite ?app_nil_r.
Qed.

Lemma hapoel_loop_clock lines s now1 now2 i rest acc :
  now1 ≤ now2 →
  hapoel_loop lines s now2 i rest (filter (λ m, now2 ≤ datetime m) acc)
  = at_later_clock now2 (hapoel_loop lines s now1 i rest acc).
Proof.
  intros Hle. revert i acc.
  induction rest as [|line rest IH]; intros i acc; cbn [hapoel_loop];
    [done|].
  destruct (among line _); [done|]. destruct (among line _); [done|].
  destruct (Re.rmatch DATE_RE line) as [[|date_str [|??]]|]; try apply IH.
  rewrite (hapoel_row_clock lines s now1 now2) by done.
  destruct (hapoel_row lines s now1 i date_str) as [[m|]|e]; simpl;
    [|apply IH|done].
  rewrite <-IH, filter_snoc_clock.
  destruct (datetime m <? now2); by rewrite ?app_nil_r.
Qed.

(** X9: In Parser A the clock reading only filters: under a later reading the
    parser raises exactly the exception it raised under the earlier one,
    and otherwise returns, in the same order, the earlier fixtures that are
    not before the later reading. An impossible date raises even when it
    lies in the past. *)
Theorem fetch_beitar_matches_clock items now1 now2 :
  now1 ≤ now2 →
  fetch_beitar_matches items now2
  = at_later_clock now2 (fetch_beitar_matches items now1).
Proof. intros Hle. by apply (beitar_loop_clock now1 now2 items []). Qed.

Lemma fetch_beitar_matches_clock_witness :
  fetch_beitar_matches [sample_item (lit "31/02/20 -> 20:30")]
                       (wall_clock 2030 1 1 0 0)
  = Raise ValueError.
Proof.
  rewrite (fetch_beitar_matches_clock _ 0 (wall_clock 2030 1 1 0 0)).
  - reflexivity.
  - vm_compute. discriminate.
Defined.

(** X15: In Parser B the clock reading only filters as well: under a later
    reading the parser raises exactly the exception it raised under the
    earlier one, and otherwise returns, in the same order, the earlier
    fixtures that are not before the later reading. *)
Theorem fetch_hapoel_matches_clock lines now1 now2 :
  now1 ≤ now2 →
  fetch_hapoel_matches lines now2
  = at_later_clock now2 (fetch_hapoel_matches lines now1).
Proof.
  intros Hle. unfold fetch_hapoel_matches.
  destruct (index_of UPCOMING lines) as [s|]; [|done].
  by apply (hapoel_loop_clock lines s now1 now2 _ _ []).
Qed.

Lemma fetch_hapoel_matches_clock_witness :
  fetch_hapoel_matches (sample_lines (lit "19:00")) (wall_clock 2031 1 1 0 0)
  = Ok [].
Proof.
  rewrite (fetch_hapoel_matches_clock _ 0 (wall_clock 2031 1 1 0 0)).
  - reflexivity.
  - vm_compute. discriminate.
Defined.

End clock_facts.
